(** * easy_proxies: the node registry of internal/monitor, and the reload gate

    A shallow embedding of [internal/monitor/manager.go]: the [Manager]
    with its [nodes] map of entry pointers, the per-entry runtime state,
    the [EntryHandle] methods, [Register], [Snapshot], [Probe] and
    [Release].

    Conventions.
    - Go's [int] is taken 64 bits wide and [atomic.Int32] 32 bits wide;
      both wrap around, written out with [wrap].
    - [time.Time] is an instant counted in nanoseconds from the zero value
      [time.Time{}]; [time.Duration] is a signed 64-bit nanosecond count.
      [time.Now()] is an explicit argument [now].
    - [*entry] pointers are indices into a store of entry objects; the
      [nodes] map and the handles hold such indices, so two handles to one
      entry alias.
    - A Go panic is the result [None].
    - Locks are not modelled: every method runs atomically.
    - The probe and release funcs stored in an entry are closures of other
      packages; what they do to the registry is given by [probe_hook] and
      [release_hook]. *)

From Stdlib Require Import ZArith String Ascii List Lia Bool.
From Stdlib Require Import Decimal DecimalString DecimalPos DecimalN.
From Stdlib Require Import Sorting.Sorted Sorting.Permutation.
From stdpp Require Import gmap strings list fin_maps.

Local Open Scope Z_scope.

(** ** Machine integers *)

(** Two's complement reduction of [x] to [w] bits. *)
Definition wrap (w : Z) (x : Z) : Z :=
  (x + 2 ^ (w - 1)) mod 2 ^ w - 2 ^ (w - 1).

Definition int_add (x y : Z) : Z := wrap 64 (x + y).
Definition int32_add (x y : Z) : Z := wrap 32 (x + y).

Definition max_int32 : Z := 2 ^ 31 - 1.
Definition min_int32 : Z := - 2 ^ 31.

(** ** Time *)

Definition Time := Z.
Definition Duration := Z.

(** [time.Time{}] *)
Definition zero_time : Time := 0.

(** [func (d Duration) Milliseconds() int64 { return int64(d) / 1e6 }];
    Go's integer division truncates towards zero. *)
Definition Milliseconds (d : Duration) : Z := Z.quot d 1000000.

(** ** Errors *)

(** The [error] values that flow through the package, by the place that
    builds them: the three [errors.New]/[fmt.Errorf] calls of manager.go,
    and errors built elsewhere (returned by a probe hook, or handed to
    [RecordFailure]). *)
Inductive error : Type :=
| errNodeNotFound (tag : string)     (* fmt.Errorf("node %s not found", tag) *)
| errProbeNotAvailable               (* errors.New("probe not available for this node") *)
| errReleaseNotAvailable             (* errors.New("release not available for this node") *)
| errForeign (msg : string).

(** [err.Error()] *)
Definition Error (e : error) : string :=
  match e with
  | errNodeNotFound tag => ("node " ++ tag ++ " not found")%string
  | errProbeNotAvailable => "probe not available for this node"%string
  | errReleaseNotAvailable => "release not available for this node"%string
  | errForeign msg => msg
  end.

(** ** NodeInfo and Snapshot *)

Record NodeInfo : Type := mkNodeInfo {
  Tag : string;
  Name : string;
  URI : string;
  Mode : string;
  ListenAddress : string;
  Port : Z
}.

Record Snapshot : Type := mkSnapshot {
  snapInfo : NodeInfo;                (* the embedded NodeInfo *)
  FailureCount : Z;
  Blacklisted : bool;
  BlacklistedUntil : Time;
  ActiveConnections : Z;
  LastError : string;
  LastFailure : Time;
  LastSuccess : Time;
  LastProbeLatency : Duration;
  LastLatencyMs : Z
}.

(** Pointers to entries. *)
Abbreviation loc := nat (only parsing).

(** [type EntryHandle struct { ref *entry }]; a [*EntryHandle] is an
    [option EntryHandle], [None] being the nil pointer. *)
Record EntryHandle : Type := mkHandle { ref : option loc }.

(** The guard [h == nil || h.ref == nil] of every handle method: the
    entry a handle leads to, if any. *)
Definition deref (h : option EntryHandle) : option loc :=
  match h with
  | None => None
  | Some h' => ref h'
  end.

Definition handle_to (l : loc) : option EntryHandle := Some (mkHandle (Some l)).

(** The display name a snapshot is sorted by. *)
Definition name_key (s : Snapshot) : string := Name (snapInfo s).

(** ** Insertion sort

    One sort that [sort.Slice] may be: the insertion sort that Go runs on
    slices of at most twelve elements, which moves a new element left past
    the elements that are greater than it. *)
Fixpoint insert_sorted {A : Type} (less : A → A → bool) (x : A) (l : list A)
  : list A :=
  match l with
  | [] => [x]
  | y :: l' => if less x y then x :: y :: l' else y :: insert_sorted less x l'
  end.

Definition insertion_sort {A : Type} (less : A → A → bool) (l : list A)
  : list A :=
  foldl (λ acc x, insert_sorted less x acc) [] l.

(** ** Ports: strconv.Atoi and parsePort *)

Definition min_int64 : Z := - 2 ^ 63.
Definition max_int64 : Z := 2 ^ 63 - 1.

(** The value of one decimal digit, [ch - '0'] with the test [ch > 9]. *)
Definition digit_of (c : ascii) : option Z :=
  let n := Z.of_N (N_of_ascii c) in
  if (48 <=? n) && (n <=? 57) then Some (n - 48) else None.

(** The loop [n = n*10 + int(ch)] over the bytes of the string. *)
Fixpoint digits_value (acc : Z) (s : string) : option Z :=
  match s with
  | EmptyString => Some acc
  | String c s' =>
      match digit_of c with
      | None => None
      | Some d => digits_value (acc * 10 + d) s'
      end
  end.

(** [strconv.Atoi] as package strconv documents it: an optional sign, then
    one decimal digit or more; a syntax error for anything else and a range
    error for a value outside [int]. [None] is a non-nil error. *)
Definition Atoi (s : string) : option Z :=
  match s with
  | EmptyString => None
  | String c rest =>
      let signed := Ascii.eqb c "-" || Ascii.eqb c "+" in
      let body := if signed then rest else s in
      match body with
      | EmptyString => None
      | String _ _ =>
          match digits_value 0 body with
          | None => None
          | Some n =>
              let v := if Ascii.eqb c "-" then - n else n in
              if (min_int64 <=? v) && (v <=? max_int64) then Some v else None
          end
      end
  end.

(** The range test of [Atoi] on its own. *)
Definition in_int (v : Z) : option Z :=
  if (min_int64 <=? v) && (v <=? max_int64) then Some v else None.

(** [strconv.Itoa] on a number that is not negative: the decimal digits,
    without leading zeros. *)
Definition Itoa (p : Z) : string :=
  NilZero.string_of_uint (N.to_uint (Z.to_N p)).

Definition parsePort (value : string) : Z :=
  match Atoi value with
  | None => 80
  | Some p => if (p <=? 0) || (65535 <? p) then 80 else p mod 2 ^ 16
  end.

(** [type Config struct] *)
Record Config : Type := mkConfig {
  Enabled : bool;
  Listen : string;
  ProbeTarget : string
}.

(** ** context.go

    A [context.Context] is the chain of the values attached to it, the
    last attached first; [Value] returns the first value whose key is
    equal to the key asked for. Keys are equal when they have the same
    type and the same value: [ctxKey s] is a key of the unexported type
    [contextKey], [otherKey s] a key of any other type. *)
Inductive context_key : Type :=
| ctxKey (s : string)
| otherKey (s : string).

#[global] Instance context_key_eq_dec : EqDecision context_key.
Proof. solve_decision. Defined.

(** The values of a context: a [*Manager] (nil when [None]) or a value of
    another type. [M] is the type of manager references. *)
Inductive context_value (M : Type) : Type :=
| valManager (p : option M)
| valOther (v : string).
Arguments valManager {M} p.
Arguments valOther {M} v.

Definition Context (M : Type) : Type := list (context_key * context_value M).

(** [context.WithValue] *)
Definition WithValue {M : Type} (ctx : Context M) (k : context_key)
    (v : context_value M) : Context M :=
  (k, v) :: ctx.

(** [ctx.Value(key)]; [None] is the nil interface. *)
Fixpoint Value {M : Type} (ctx : Context M) (k : context_key)
  : option (context_value M) :=
  match ctx with
  | [] => None
  | (k', v) :: ctx' => if decide (k' = k) then Some v else Value ctx' k
  end.

(** [const managerKey contextKey = "easy_proxies.monitor"] *)
Definition managerKey : context_key := ctxKey "easy_proxies.monitor".

Definition ContextWith {M : Type} (ctx : Context M) (mgr : option M)
  : Context M :=
  match mgr with
  | None => ctx
  | Some _ => WithValue ctx managerKey (valManager mgr)
  end.

(** The value under [managerKey], asserted to be a manager pointer: the
    type assertion gives nil when the value is absent or of another type. *)
Definition FromContext {M : Type} (ctx : Context M) : option M :=
  match Value ctx managerKey with
  | Some (valManager p) => p
  | _ => None
  end.

(** ** server.go: requests and responses *)

(** [strings.Split(s, sep)] for a separator of one byte. *)
Fixpoint Split (sep : ascii) (s : string) : list string :=
  match s with
  | EmptyString => [EmptyString]
  | String c s' =>
      if Ascii.eqb c sep then EmptyString :: Split sep s'
      else match Split sep s' with
           | [] => [String c EmptyString]
           | p :: ps => String c p :: ps
           end
  end.

(** The byte [c] occurs in [s]. *)
Fixpoint has_byte (c : ascii) (s : string) : bool :=
  match s with
  | EmptyString => false
  | String b s' => Ascii.eqb b c || has_byte c s'
  end.

(** [s] without the leading [prefix], when it starts with it. *)
Fixpoint cut_prefix (prefix s : string) : option string :=
  match prefix with
  | EmptyString => Some s
  | String a prefix' =>
      match s with
      | EmptyString => None
      | String b s' => if Ascii.eqb a b then cut_prefix prefix' s' else None
      end
  end.

(** [strings.TrimPrefix] *)
Definition TrimPrefix (s prefix : string) : string :=
  default s (cut_prefix prefix s).

Definition MethodGet : string := "GET".
Definition MethodPost : string := "POST".

Definition StatusOK : Z := 200.
Definition StatusBadRequest : Z := 400.
Definition StatusNotFound : Z := 404.
Definition StatusMethodNotAllowed : Z := 405.

(** The value handed to [writeJSON], before it is encoded. *)
Inductive payload : Type :=
| NoBody
| JsonNodes (nodes : list Snapshot)              (* {"nodes": ...} *)
| JsonError (msg : string)                       (* {"error": ...} *)
| JsonProbed (message : string) (latency_ms : Z) (* {"message", "latency_ms"} *)
| JsonMessage (message : string).                (* {"message": ...} *)

Record Response : Type := mkResponse {
  Status : Z;
  ContentType : option string;
  Body : payload
}.

(** [w.WriteHeader(code)] and nothing written. *)
Definition WriteHeader (code : Z) : Response := mkResponse code None NoBody.

(** [writeJSON(w, payload)]: the first write sends the status 200. *)
Definition writeJSON (p : payload) : Response :=
  mkResponse StatusOK (Some "application/json"%string) p.

(** [parts], [tag] and [action] of [handleNodeAction]. *)
Definition action_parts (path : string) : list string :=
  Split "/" (TrimPrefix path "/api/nodes/").

Definition action_tag (path : string) : string :=
  hd EmptyString (action_parts path).

Definition action_name (path : string) : string :=
  if (1 <? length (action_parts path))%nat
  then nth 1 (action_parts path) EmptyString
  else EmptyString.

(** ** The reload orchestrator *)

Module Reload.

(** Modelled from the spec: the reload orchestrator of section 4.3. The
    repository holds no code for it under src/ (the outline in
    docs/subscription-refresh-proposal.md names [BoxManager.Reload],
    [preflightCheck], [gracefulSwitch] and [drainOldBox] without bodies),
    so the states, the transitions and the error taxonomy below follow the
    spec's sections 4.3, 5 and 7. *)
Inductive state : Type :=
| Idle | FetchingNodes | BuildingInstance | PreflightChecking
| Switching | Draining | Closed | RolledBack.

Inductive reload_error : Type :=
| FetchError
| BuildError
| PreflightError (available required : nat)
| BindError
| Cancelled
| Busy.

(** Modelled from the spec: what the preflight check reads of a candidate
    node; the zero time stands for "never". *)
Record NodeHealth : Type := mkHealth {
  last_success : Time;
  last_failure : Time
}.

(** Modelled from the spec: "count nodes with last_success newer than
    last_failure (or no failure yet) as healthy": the node has a success,
    and either no failure or an older one. *)
Definition healthy (n : NodeHealth) : bool :=
  negb (last_success n =? zero_time) &&
  ((last_failure n =? zero_time) || (last_failure n <? last_success n)).

Definition healthy_count (ns : list NodeHealth) : nat :=
  length (filter (λ n, healthy n = true) ns).

(** Modelled from the spec: an engine instance, bound to one population
    of endpoints (their tags). *)
Record Instance : Type := mkInstance {
  inst_id : nat;
  population : list string
}.

(** Modelled from the spec: what the external collaborators answer during
    one reload attempt. *)
Record Attempt : Type := mkAttempt {
  cancel_at : option state;            (* boundary at which shutdown is seen *)
  fetched : option (list string);      (* [None]: fetch failed or timed out *)
  built : option nat;                  (* [None]: build failed *)
  probed : list NodeHealth;            (* the candidate nodes after the wait *)
  bound : bool;                        (* the new listener could be bound *)
  drained : bool                       (* [false]: drain_timeout elapsed *)
}.

(** Modelled from the spec: the orchestrator with its reload session. *)
Record Orchestrator : Type := mkOrchestrator {
  phase : state;
  active : Instance;
  nodes_fetched : list string;
  candidate : option Instance;
  draining : option Instance;
  closed : list Instance;
  failure : option reload_error
}.

Definition idle (a : Instance) : Orchestrator :=
  mkOrchestrator Idle a [] None None [] None.

(** Modelled from the spec: abort to [RolledBack]; the candidate is
    disposed and the previous instance is left as it is. *)
Definition roll_back (err : reload_error) (o : Orchestrator) : Orchestrator :=
  mkOrchestrator RolledBack (active o) [] None (draining o)
                 (option_list (candidate o) ++ closed o) (Some err).

(** Modelled from the spec: the shutdown signal is checked at each state
    boundary, and aborts the session only before [Switching]. *)
Definition cancelled (a : Attempt) (s : state) : bool :=
  match cancel_at a, s with
  | Some FetchingNodes, FetchingNodes
  | Some BuildingInstance, BuildingInstance
  | Some PreflightChecking, PreflightChecking => true
  | _, _ => false
  end.

(** Modelled from the spec: the transitions 1 to 6 of section 4.3. *)
Definition step (min_available_nodes : nat) (a : Attempt) (o : Orchestrator)
  : Orchestrator :=
  if cancelled a (phase o) then roll_back Cancelled o else
  match phase o with
  | Idle =>
      mkOrchestrator FetchingNodes (active o) [] None (draining o) (closed o)
                     None
  | FetchingNodes =>
      match fetched a with
      | None => roll_back FetchError o
      | Some ns =>
          mkOrchestrator BuildingInstance (active o) ns None (draining o)
                         (closed o) None
      end
  | BuildingInstance =>
      match built a with
      | None => roll_back BuildError o
      | Some id =>
          mkOrchestrator PreflightChecking (active o) (nodes_fetched o)
                         (Some (mkInstance id (nodes_fetched o)))
                         (draining o) (closed o) None
      end
  | PreflightChecking =>
      let available := healthy_count (probed a) in
      if (available <? min_available_nodes)%nat
      then roll_back (PreflightError available min_available_nodes) o
      else mkOrchestrator Switching (active o) (nodes_fetched o) (candidate o)
                          (draining o) (closed o) None
  | Switching =>
      match candidate o with
      | None => roll_back BuildError o
      | Some c =>
          if bound a
          then mkOrchestrator Draining c (nodes_fetched o) None
                              (Some (active o)) (closed o) None
          else roll_back BindError o
      end
  | Draining =>
      mkOrchestrator Closed (active o) (nodes_fetched o) None None
                     (option_list (draining o) ++ closed o) None
  | Closed | RolledBack => o
  end.

(** Modelled from the spec: one reload attempt, from the trigger to the
    end of the session; a trigger while a session is in flight is refused
    with [Busy] and changes nothing. *)
Definition reload (min_available_nodes : nat) (a : Attempt) (o : Orchestrator)
  : Orchestrator * option reload_error :=
  match phase o with
  | Idle =>
      let o' := Nat.iter 6 (step min_available_nodes a) o in
      (o', failure o')
  | _ => (o, Some Busy)
  end.

End Reload.

Section Registry.

Set Implicit Arguments.
Set Maximal Implicit Insertion.

(** Closure values. [probeFunc] is [func(ctx) (time.Duration, error)],
    [releaseFunc] is [func()]; [Ctx] is [context.Context]. *)
Variables (probeFunc releaseFunc Ctx : Type).

Record entry : Type := mkEntry {
  info : NodeInfo;
  failure : Z;
  blacklist : bool;
  until : Time;
  lastError : string;
  lastFail : Time;
  lastOK : Time;
  lastProbe : Duration;
  active : Z;
  probe : option probeFunc;
  release : option releaseFunc
}.

(** [&entry{info: info}]: every other field has its zero value. *)
Definition new_entry (i : NodeInfo) : entry :=
  mkEntry i 0 false zero_time EmptyString zero_time zero_time 0 0 None None.

(** The mutable runtime state of an entry, everything but [info] and the
    two hooks. *)
Definition runtime (e : entry)
  : Z * bool * Time * string * Time * Time * Duration * Z :=
  (failure e, blacklist e, until e, lastError e, lastFail e, lastOK e,
   lastProbe e, active e).

(** *** Methods of [*entry] *)

Definition set_info (i : NodeInfo) (e : entry) : entry :=
  mkEntry i (failure e) (blacklist e) (until e) (lastError e) (lastFail e)
          (lastOK e) (lastProbe e) (active e) (probe e) (release e).

Definition snapshot (e : entry) : Snapshot :=
  let latencyMs := if 0 <? lastProbe e then Milliseconds (lastProbe e) else -1 in
  mkSnapshot (info e) (failure e) (blacklist e) (until e) (active e)
             (lastError e) (lastFail e) (lastOK e) (lastProbe e) latencyMs.

(** [err.Error()] on a nil interface value panics. *)
Definition recordFailure (err : option error) (now : Time) (e : entry)
  : option entry :=
  match err with
  | None => None
  | Some er =>
      Some (mkEntry (info e) (int_add (failure e) 1) (blacklist e) (until e)
                    (Error er) now (lastOK e) (lastProbe e) (active e)
                    (probe e) (release e))
  end.

Definition recordSuccess (now : Time) (e : entry) : entry :=
  mkEntry (info e) (failure e) (blacklist e) (until e) (lastError e)
          (lastFail e) now (lastProbe e) (active e) (probe e) (release e).

Definition blacklistUntil (t : Time) (e : entry) : entry :=
  mkEntry (info e) (failure e) true t (lastError e) (lastFail e) (lastOK e)
          (lastProbe e) (active e) (probe e) (release e).

Definition clearBlacklist (e : entry) : entry :=
  mkEntry (info e) (failure e) false zero_time (lastError e) (lastFail e)
          (lastOK e) (lastProbe e) (active e) (probe e) (release e).

Definition incActive (e : entry) : entry :=
  mkEntry (info e) (failure e) (blacklist e) (until e) (lastError e)
          (lastFail e) (lastOK e) (lastProbe e) (int32_add (active e) 1)
          (probe e) (release e).

Definition decActive (e : entry) : entry :=
  mkEntry (info e) (failure e) (blacklist e) (until e) (lastError e)
          (lastFail e) (lastOK e) (lastProbe e) (int32_add (active e) (-1))
          (probe e) (release e).

Definition setProbe (fn : option probeFunc) (e : entry) : entry :=
  mkEntry (info e) (failure e) (blacklist e) (until e) (lastError e)
          (lastFail e) (lastOK e) (lastProbe e) (active e) fn (release e).

Definition setRelease (fn : option releaseFunc) (e : entry) : entry :=
  mkEntry (info e) (failure e) (blacklist e) (until e) (lastError e)
          (lastFail e) (lastOK e) (lastProbe e) (active e) (probe e) fn.

Definition recordProbeLatency (d : Duration) (e : entry) : entry :=
  mkEntry (info e) (failure e) (blacklist e) (until e) (lastError e)
          (lastFail e) (lastOK e) d (active e) (probe e) (release e).

(** ** The manager *)

(** [nodes] is the [map[string]*entry]; [store] holds the entry objects
    the pointers lead to. [cfg], [probeDst] and [probeReady] are neither
    read nor written by the methods below and are left out. *)
Record Manager : Type := mkManager {
  nodes : gmap string loc;
  store : list entry
}.

(** The node map of [NewManager]: [make(map[string]*entry)]. *)
Definition NewManager : Manager := mkManager ∅ [].

(** A method of [*entry] run on the object at [l]. *)
Definition at_entry (l : loc) (f : entry → entry) (m : Manager) : Manager :=
  mkManager (nodes m) (alter f l (store m)).

(** The entry a tag leads to. *)
Definition entry_of (m : Manager) (tag : string) : option entry :=
  match nodes m !! tag with
  | None => None
  | Some l => store m !! l
  end.

Definition Register (i : NodeInfo) (m : Manager) : Manager * option EntryHandle :=
  match nodes m !! Tag i with
  | None =>
      let l := length (store m) in
      (mkManager (<[Tag i := l]> (nodes m)) (store m ++ [new_entry i]),
       handle_to l)
  | Some l => (at_entry l (set_info i) m, handle_to l)
  end.

(** *** Methods of [*EntryHandle] *)

Definition RecordFailure (h : option EntryHandle) (err : option error)
    (now : Time) (m : Manager) : option Manager :=
  match deref h with
  | None => Some m
  | Some l =>
      match store m !! l with
      | None => Some m
      | Some e =>
          match recordFailure err now e with
          | None => None
          | Some e' => Some (mkManager (nodes m) (<[l := e']> (store m)))
          end
      end
  end.

Definition RecordSuccess (h : option EntryHandle) (now : Time) (m : Manager)
  : Manager :=
  match deref h with
  | None => m
  | Some l => at_entry l (recordSuccess now) m
  end.

Definition Blacklist (h : option EntryHandle) (t : Time) (m : Manager)
  : Manager :=
  match deref h with
  | None => m
  | Some l => at_entry l (blacklistUntil t) m
  end.

Definition ClearBlacklist (h : option EntryHandle) (m : Manager) : Manager :=
  match deref h with
  | None => m
  | Some l => at_entry l clearBlacklist m
  end.

Definition IncActive (h : option EntryHandle) (m : Manager) : Manager :=
  match deref h with
  | None => m
  | Some l => at_entry l incActive m
  end.

Definition DecActive (h : option EntryHandle) (m : Manager) : Manager :=
  match deref h with
  | None => m
  | Some l => at_entry l decActive m
  end.

Definition SetProbe (h : option EntryHandle) (fn : option probeFunc)
    (m : Manager) : Manager :=
  match deref h with
  | None => m
  | Some l => at_entry l (setProbe fn) m
  end.

Definition SetRelease (h : option EntryHandle) (fn : option releaseFunc)
    (m : Manager) : Manager :=
  match deref h with
  | None => m
  | Some l => at_entry l (setRelease fn) m
  end.

(** ** Calls into the package from outside

    The entry fields are unexported: code of other packages (the pool
    adapter, the hooks it attaches) reaches an entry through the exported
    methods only. A [call] is one such method call that runs no hook. *)
Inductive call : Type :=
| CallRegister (i : NodeInfo)
| CallRecordFailure (h : option EntryHandle) (err : option error) (now : Time)
| CallRecordSuccess (h : option EntryHandle) (now : Time)
| CallBlacklist (h : option EntryHandle) (t : Time)
| CallClearBlacklist (h : option EntryHandle)
| CallIncActive (h : option EntryHandle)
| CallDecActive (h : option EntryHandle)
| CallSetProbe (h : option EntryHandle) (fn : option probeFunc)
| CallSetRelease (h : option EntryHandle) (fn : option releaseFunc).

Definition run_call (c : call) (m : Manager) : option Manager :=
  match c with
  | CallRegister i => Some (fst (Register i m))
  | CallRecordFailure h err now => RecordFailure h err now m
  | CallRecordSuccess h now => Some (RecordSuccess h now m)
  | CallBlacklist h t => Some (Blacklist h t m)
  | CallClearBlacklist h => Some (ClearBlacklist h m)
  | CallIncActive h => Some (IncActive h m)
  | CallDecActive h => Some (DecActive h m)
  | CallSetProbe h fn => Some (SetProbe h fn m)
  | CallSetRelease h fn => Some (SetRelease h fn m)
  end.

Fixpoint run_calls (cs : list call) (m : Manager) : option Manager :=
  match cs with
  | [] => Some m
  | c :: cs' =>
      match run_call c m with
      | None => None
      | Some m' => run_calls cs' m'
      end
  end.

(** ** Hooks

    What a closure does when it is called: the calls it makes into the
    registry, given the state it is called in, and for a probe the pair
    it returns. A hook makes [call]s only: it does not call [Probe] or
    [Release] in turn. The error of a probe is built outside manager.go;
    it is given by its message, [None] being the nil error. *)
Variable probe_hook :
  probeFunc → Ctx → Manager → list call * (Duration * option string).
Variable release_hook : releaseFunc → Manager → list call.

(** The lookup [m.entry(tag)]: the entry pointer, or the not-found error. *)
Definition Manager_entry (tag : string) (m : Manager) : loc + error :=
  match nodes m !! tag with
  | None => inr (errNodeNotFound tag)
  | Some l => inl l
  end.

(** The probe hook of the entry at [l]; [None] is the nil func. *)
Definition probe_at (m : Manager) (l : loc) : option probeFunc :=
  match store m !! l with
  | None => None
  | Some e => probe e
  end.

Definition release_at (m : Manager) (l : loc) : option releaseFunc :=
  match store m !! l with
  | None => None
  | Some e => release e
  end.

Definition Probe (ctx : Ctx) (tag : string) (m : Manager)
  : option (Manager * (Duration * option error)) :=
  match Manager_entry tag m with
  | inr err => Some (m, (0, Some err))
  | inl l =>
      match probe_at m l with
      | None => Some (m, (0, Some errProbeNotAvailable))
      | Some fn =>
          let '(cs, (latency, err)) := probe_hook fn ctx m in
          match run_calls cs m with
          | None => None
          | Some m' =>
              match err with
              | Some msg => Some (m', (0, Some (errForeign msg)))
              | None =>
                  Some (at_entry l (recordProbeLatency latency) m',
                        (latency, None))
              end
          end
      end
  end.

Definition Release (tag : string) (m : Manager)
  : option (Manager * option error) :=
  match Manager_entry tag m with
  | inr err => Some (m, Some err)
  | inl l =>
      match release_at m l with
      | None => Some (m, Some errReleaseNotAvailable)
      | Some fn =>
          match run_calls (release_hook fn m) m with
          | None => None
          | Some m' => Some (m', None)
          end
      end
  end.

(** ** Snapshot *)

(** [sort.Slice]: the package documents that it sorts by [less] and that
    the sort is not guaranteed to be stable. *)
Variable sort_Slice :
  (Snapshot → Snapshot → bool) → list Snapshot → list Snapshot.

(** [snapshots[i].Name < snapshots[j].Name]: Go compares strings byte by
    byte. *)
Definition name_less (a b : Snapshot) : bool :=
  String.ltb (Name (snapInfo a)) (Name (snapInfo b)).

(** [order] is the order in which [range m.nodes] visits the keys, which
    Go leaves unspecified. *)
Definition Manager_Snapshot (order : list string) (m : Manager)
  : list Snapshot :=
  let list := omap (λ tag, nodes m !! tag) order in
  let snapshots := omap (λ l, snapshot <$> store m !! l) list in
  sort_Slice name_less snapshots.

(** [range] visits every key of the map once. *)
Definition range_order (m : Manager) (order : list string) : Prop :=
  NoDup order ∧ ∀ tag, tag ∈ order ↔ is_Some (nodes m !! tag).

(** ** Operations of the registry, hooks included *)
Inductive op : Type :=
| OpCall (c : call)
| OpProbe (ctx : Ctx) (tag : string)
| OpRelease (tag : string).

Definition run_op (o : op) (m : Manager) : option Manager :=
  match o with
  | OpCall c => run_call c m
  | OpProbe ctx tag => fst <$> Probe ctx tag m
  | OpRelease tag => fst <$> Release tag m
  end.

Fixpoint run (os : list op) (m : Manager) : option Manager :=
  match os with
  | [] => Some m
  | o :: os' =>
      match run_op o m with
      | None => None
      | Some m' => run os' m'
      end
  end.

(** Every pointer of the map leads to an entry object, and no two tags
    share one. *)
Definition wf (m : Manager) : Prop :=
  (∀ tag l, nodes m !! tag = Some l → (l < length (store m))%nat) ∧
  (∀ t1 t2 l, nodes m !! t1 = Some l → nodes m !! t2 = Some l → t1 = t2).

(** ** What one call does to the store

    The entry a call writes, the method it runs there, and the entry it
    allocates; [run_call_store] relates them to [run_call]. *)
Definition call_target (c : call) (m : Manager) : option loc :=
  match c with
  | CallRegister i => nodes m !! Tag i
  | CallRecordFailure h _ _ | CallRecordSuccess h _ | CallBlacklist h _
  | CallClearBlacklist h | CallIncActive h | CallDecActive h
  | CallSetProbe h _ | CallSetRelease h _ => deref h
  end.

Definition call_method (c : call) (e : entry) : entry :=
  match c with
  | CallRegister i => set_info i e
  | CallRecordFailure _ err now => default e (recordFailure err now e)
  | CallRecordSuccess _ now => recordSuccess now e
  | CallBlacklist _ t => blacklistUntil t e
  | CallClearBlacklist _ => clearBlacklist e
  | CallIncActive _ => incActive e
  | CallDecActive _ => decActive e
  | CallSetProbe _ fn => setProbe fn e
  | CallSetRelease _ fn => setRelease fn e
  end.

Definition call_alloc (c : call) (m : Manager) : list entry :=
  match c with
  | CallRegister i =>
      match nodes m !! Tag i with
      | None => [new_entry i]
      | Some _ => []
      end
  | _ => []
  end.

Definition call_nodes (c : call) (m : Manager) : gmap string loc :=
  match c with
  | CallRegister i =>
      match nodes m !! Tag i with
      | None => <[Tag i := length (store m)]> (nodes m)
      | Some _ => nodes m
      end
  | _ => nodes m
  end.

(** The receiver is a nil [*EntryHandle], or its [ref] is nil. *)
Definition nil_handle (h : option EntryHandle) : Prop :=
  h = None ∨ h = Some (mkHandle None).

(** [o] is a manual probe of [tag]. *)
Definition probes_tag (tag : string) (o : op) : bool :=
  match o with
  | OpProbe _ t => bool_decide (t = tag)
  | _ => false
  end.

(** The entry of [tag], when there is one, has the zero [lastProbe]. *)
Definition unprobed (tag : string) (m : Manager) : Prop :=
  ∀ l e, nodes m !! tag = Some l → store m !! l = Some e → lastProbe e = 0.

(** [c] blacklists the entry at [l]. *)
Definition blacklists (l : loc) (c : call) : bool :=
  match c with
  | CallBlacklist h _ => bool_decide (deref h = Some l)
  | _ => false
  end.

(** The entry at [l] is there and is not blacklisted, with the zero expiry:
    the state [clearBlacklist] leaves. *)
Definition cleared (l : loc) (m : Manager) : Prop :=
  ∃ e, store m !! l = Some e ∧ blacklist e = false ∧ until e = zero_time.

(** Modelled from the spec: the release hook that the pool adapter
    (internal/outbound/pool, not under src/) attaches with [SetRelease].
    The spec says of it that release(tag) "clears blacklist": among the
    calls the hook makes there is [ClearBlacklist] on a handle of its
    entry, and it does not blacklist that entry again afterwards. *)
Definition clears_blacklist (l : loc) (cs : list call) : Prop :=
  ∃ pre h post,
    cs = pre ++ CallClearBlacklist h :: post ∧ deref h = Some l ∧
    forallb (λ c, negb (blacklists l c)) post = true.

(** ** Connection counters *)

(** Every counter of the store is an [int32] that is not negative. *)
Definition active_ok (m : Manager) : Prop :=
  ∀ l e, store m !! l = Some e → 0 ≤ active e ≤ max_int32.

(** The calls are bracketed: [DecActive] reaches an entry only while its
    counter is above zero, that is, after an [IncActive] that it closes,
    and [IncActive] only while the counter is below the largest [int32]. *)
Definition call_guard (c : call) (m : Manager) : bool :=
  match c with
  | CallDecActive h =>
      match deref h with
      | None => true
      | Some l =>
          match store m !! l with
          | None => true
          | Some e => 0 <? active e
          end
      end
  | CallIncActive h =>
      match deref h with
      | None => true
      | Some l =>
          match store m !! l with
          | None => true
          | Some e => active e <? max_int32
          end
      end
  | _ => true
  end.

Fixpoint calls_guard (cs : list call) (m : Manager) : bool :=
  match cs with
  | [] => true
  | c :: cs' =>
      call_guard c m &&
      match run_call c m with
      | None => true
      | Some m' => calls_guard cs' m'
      end
  end.

(** The guard of an operation covers the calls of the hook it runs. *)
Definition op_guard (o : op) (m : Manager) : bool :=
  match o with
  | OpCall c => call_guard c m
  | OpProbe ctx tag =>
      match nodes m !! tag with
      | None => true
      | Some l =>
          match probe_at m l with
          | None => true
          | Some fn => calls_guard (probe_hook fn ctx m).1 m
          end
      end
  | OpRelease tag =>
      match nodes m !! tag with
      | None => true
      | Some l =>
          match release_at m l with
          | None => true
          | Some fn => calls_guard (release_hook fn m) m
          end
      end
  end.

Fixpoint guarded (os : list op) (m : Manager) : bool :=
  match os with
  | [] => true
  | o :: os' =>
      op_guard o m &&
      match run_op o m with
      | None => true
      | Some m' => guarded os' m'
      end
  end.

(** ** Order of snapshots *)

(** [a] may stand before [b] in a slice sorted by [name_less]. *)
Definition name_le (a b : Snapshot) : Prop := name_less b a = false.

(** The snapshots in the order of the [range] loop, before the sort. *)
Definition snapshots_in (order : list string) (m : Manager) : list Snapshot :=
  omap (λ tag, snapshot <$> entry_of m tag) order.

(** No two registered entries have the same display name. *)
Definition distinct_names (m : Manager) : Prop :=
  ∀ t1 t2 e1 e2,
    entry_of m t1 = Some e1 → entry_of m t2 = Some e2 →
    Name (info e1) = Name (info e2) → t1 = t2.

(** ** More on calls *)

(** Every entry of the map carries the tag it is registered under. *)
Definition tag_keyed (m : Manager) : Prop :=
  ∀ tag l e, nodes m !! tag = Some l → store m !! l = Some e →
             Tag (info e) = tag.



(** ** NewManager and the probe destination *)

(** [M.Socksaddr] of sing, with its zero value and its parser, and
    [net.SplitHostPort]; all three belong to other packages. *)
Variable Socksaddr : Type.
Variable zero_Socksaddr : Socksaddr.
Variable ParseSocksaddrHostPort : string → Z → Socksaddr.
Variable SplitHostPort : string → (string * string) + error.

(** The fields of [Manager] that [nodes] and [store] leave out. *)
Record Probing : Type := mkProbing {
  cfg : Config;
  probeDst : Socksaddr;
  probeReady : bool
}.

(** [NewManager(cfg)]: the manager with its empty node map, or the error
    of [net.SplitHostPort]. *)
Definition NewManagerFor (c : Config) : (Probing * Manager) + error :=
  if String.eqb (ProbeTarget c) EmptyString
  then inl (mkProbing c zero_Socksaddr false, NewManager)
  else
    match SplitHostPort (ProbeTarget c) with
    | inr err => inr err
    | inl (host, port) =>
        inl (mkProbing c (ParseSocksaddrHostPort host (parsePort port)) true,
             NewManager)
    end.

Definition DestinationForProbe (p : Probing) : Socksaddr * bool :=
  if negb (probeReady p) then (zero_Socksaddr, false) else (probeDst p, true).

(** ** The HTTP handlers *)

(** [context.WithTimeout(r.Context(), d)] *)
Variable WithTimeout : Ctx → Duration → Ctx.

Record Request : Type := mkRequest {
  Method : string;
  Path : string;
  reqContext : Ctx
}.

Definition handleNodes (order : list string) (r : Request) (m : Manager)
  : Response :=
  if negb (String.eqb (Method r) MethodGet)
  then WriteHeader StatusMethodNotAllowed
  else writeJSON (JsonNodes (Manager_Snapshot order m)).

(** The response to a probe, from what [Probe] returned. *)
Definition probe_response (res : Duration * option error) : Response :=
  match res with
  | (_, Some err) => writeJSON (JsonError (Error err))
  | (latency, None) =>
      writeJSON (JsonProbed "探测成功" (Milliseconds latency))
  end.

Definition release_response (res : option error) : Response :=
  match res with
  | Some err => writeJSON (JsonError (Error err))
  | None => writeJSON (JsonMessage "已解除拉黑")
  end.

(** [handleNodeAction] *)
Definition handleNodeAction (r : Request) (m : Manager)
  : option (Manager * Response) :=
  let parts := action_parts (Path r) in
  if (length parts <? 1)%nat then Some (m, WriteHeader StatusBadRequest)
  else
    let tag := action_tag (Path r) in
    if String.eqb tag EmptyString then Some (m, WriteHeader StatusBadRequest)
    else
      let action := action_name (Path r) in
      if String.eqb action "probe" then
        if negb (String.eqb (Method r) MethodPost)
        then Some (m, WriteHeader StatusMethodNotAllowed)
        else
          match Probe (WithTimeout (reqContext r) 10000000000) tag m with
          | None => None
          | Some (m', res) => Some (m', probe_response res)
          end
      else if String.eqb action "release" then
        if negb (String.eqb (Method r) MethodPost)
        then Some (m, WriteHeader StatusMethodNotAllowed)
        else
          match Release tag m with
          | None => None
          | Some (m', res) => Some (m', release_response res)
          end
      else Some (m, WriteHeader StatusNotFound).

(** The answer to a probe request that reached [Probe]. *)
Definition probe_outcome (r : Request) (tag : string) (m : Manager)
  : option (Manager * Response) :=
  match Probe (WithTimeout (reqContext r) 10000000000) tag m with
  | None => None
  | Some (m', res) => Some (m', probe_response res)
  end.

Definition release_outcome (tag : string) (m : Manager)
  : option (Manager * Response) :=
  match Release tag m with
  | None => None
  | Some (m', res) => Some (m', release_response res)
  end.

End Registry.

Unset Implicit Arguments.
Unset Maximal Implicit Insertion.

Arguments NewManager {probeFunc releaseFunc}.
Arguments new_entry {probeFunc releaseFunc} i.
Arguments CallRegister {probeFunc releaseFunc} i.
Arguments CallRecordFailure {probeFunc releaseFunc} h err now.
Arguments CallRecordSuccess {probeFunc releaseFunc} h now.
Arguments CallBlacklist {probeFunc releaseFunc} h t.
Arguments CallClearBlacklist {probeFunc releaseFunc} h.
Arguments CallIncActive {probeFunc releaseFunc} h.
Arguments CallDecActive {probeFunc releaseFunc} h.
Arguments CallSetProbe {probeFunc releaseFunc} h fn.
Arguments CallSetRelease {probeFunc releaseFunc} h fn.
Arguments OpCall {probeFunc releaseFunc Ctx} c.
Arguments OpProbe {probeFunc releaseFunc Ctx} ctx tag.
Arguments OpRelease {probeFunc releaseFunc Ctx} tag.

(** ** Sample closures and states *)

Inductive sample_probe : Type :=
| ProbeTakes (d : Duration)
| ProbeFails (msg : string).

Inductive sample_release : Type :=
| ReleaseClears (h : option EntryHandle)
| ReleaseIdle.

Definition sample_probe_hook (f : sample_probe) (ctx : unit)
    (m : Manager sample_probe sample_release)
  : list (call sample_probe sample_release) * (Duration * option string) :=
  match f with
  | ProbeTakes d => ([], (d, None))
  | ProbeFails msg => ([], (0, Some msg))
  end.

Definition sample_release_hook (f : sample_release)
    (m : Manager sample_probe sample_release)
  : list (call sample_probe sample_release) :=
  match f with
  | ReleaseClears h => [CallClearBlacklist h]
  | ReleaseIdle => []
  end.

Definition node_a : NodeInfo :=
  mkNodeInfo "a" "alpha" "ss://a" "pool" EmptyString 0.
Definition node_a' : NodeInfo :=
  mkNodeInfo "a" "alpha two" "ss://a2" "pool" EmptyString 0.
Definition node_b : NodeInfo :=
  mkNodeInfo "b" "beta" "ss://b" "pool" EmptyString 0.
Definition node_c : NodeInfo :=
  mkNodeInfo "c" "alpha" "ss://c" "pool" EmptyString 0.

Definition sample_run (os : list (op sample_probe sample_release unit))
  : Manager sample_probe sample_release :=
  default NewManager (run sample_probe_hook sample_release_hook os NewManager).

Definition sample_run_from (m : Manager sample_probe sample_release)
    (os : list (op sample_probe sample_release unit))
  : Manager sample_probe sample_release :=
  default m (run sample_probe_hook sample_release_hook os m).

Definition m_busy := sample_run
  [OpCall (CallRegister node_a);
   OpCall (CallRecordFailure (handle_to 0) (Some (errForeign "dial timeout")) 5);
   OpCall (CallBlacklist (handle_to 0) 900);
   OpCall (CallIncActive (handle_to 0));
   OpCall (CallSetRelease (handle_to 0) (Some (ReleaseClears (handle_to 0))))].

(** As [m_busy], with a release hook that makes no call. *)
Definition m_held := sample_run
  [OpCall (CallRegister node_a);
   OpCall (CallBlacklist (handle_to 0) 900);
   OpCall (CallSetRelease (handle_to 0) (Some ReleaseIdle))].

(** An entry with as many open connections as an [int32] holds. *)
Definition e_full : entry sample_probe sample_release :=
  mkEntry node_a 0 false zero_time EmptyString zero_time zero_time 0 max_int32
          None None.

(** Scenario B of the spec, cut down to two candidate nodes that both
    failed their probe, and an attempt whose two candidates are healthy. *)
Definition attempt_unhealthy : Reload.Attempt :=
  Reload.mkAttempt None (Some ["n1"; "n2"]%string) (Some 2%nat)
                   [Reload.mkHealth 0 40; Reload.mkHealth 0 55] true true.

Definition attempt_healthy : Reload.Attempt :=
  Reload.mkAttempt None (Some ["n1"; "n2"]%string) (Some 2%nat)
                   [Reload.mkHealth 60 40; Reload.mkHealth 58 0] true true.

Definition serving_old : Reload.Orchestrator :=
  Reload.idle (Reload.mkInstance 1 ["old"%string]).

Definition m_idle : Manager sample_probe sample_release :=
  sample_run [OpCall (CallRegister node_a)].

Definition m_ab := sample_run
  [OpCall (CallRegister node_a); OpCall (CallRegister node_b)].

Definition m_ba := sample_run
  [OpCall (CallRegister node_b); OpCall (CallRegister node_a)].

(** [node_a] and [node_c] have the same display name. *)
Definition m_ac := sample_run
  [OpCall (CallRegister node_a); OpCall (CallRegister node_c)].

(** The entry of "a" has a probe hook that measures 2.5 ms, the entry of
    "b" one that measures a duration of 0. *)
Definition m_probes := sample_run
  [OpCall (CallRegister node_a); OpCall (CallRegister node_b);
   OpCall (CallSetProbe (handle_to 0) (Some (ProbeTakes 2500000)));
   OpCall (CallSetProbe (handle_to 1) (Some (ProbeTakes 0)))].

(** A stand-in for [net.SplitHostPort] on targets of the form
    host:port, and for [M.Socksaddr] a pair of host and port. *)
Definition sample_SplitHostPort (s : string) : (string * string) + error :=
  match Split ":" s with
  | [host; port] => inl (host, port)
  | _ => inr (errForeign "missing port in address")
  end.

Definition sample_NewManager (c : Config) :=
  NewManagerFor sample_probe sample_release (EmptyString, 0) pair
                sample_SplitHostPort c.

Definition sample_WithTimeout (ctx : unit) (d : Duration) : unit := ctx.

Definition sample_handler :=
  handleNodeAction sample_probe_hook sample_release_hook sample_WithTimeout.

(** The probe target names a service instead of a port number. *)
Definition cfg_named_port : Config :=
  mkConfig true "0.0.0.0:9090" "www.apple.com:http".

(** * Ports *)

Lemma digit_of_not_sign (c : ascii) :
  digit_of c ≠ None → Ascii.eqb c "-" = false ∧ Ascii.eqb c "+" = false.
Proof.
  intros Hd. split.
  - destruct (Ascii.eqb_spec c "-") as [->|]; [|done]. by vm_compute in Hd.
  - destruct (Ascii.eqb_spec c "+") as [->|]; [|done]. by vm_compute in Hd.
Qed.

Lemma Atoi_unsigned (c : ascii) (s : string) :
  digit_of c ≠ None →
  Atoi (String c s) =
  match digits_value 0 (String c s) with
  | None => None
  | Some n => in_int n
  end.
Proof.
  intros Hd. destruct (digit_of_not_sign c Hd) as [H1 H2].
  unfold Atoi. rewrite H1, H2. reflexivity.
Qed.

Ltac eval_digit :=
  match goal with
  | |- context [digit_of ?c] =>
      let v := eval vm_compute in (digit_of c) in change (digit_of c) with v
  end; cbv iota.

Lemma digits_value_uint_acc (d : uint) (acc : positive) :
  digits_value (Zpos acc) (NilEmpty.string_of_uint d) =
  Some (Zpos (Pos.of_uint_acc d acc)).
Proof.
  revert acc.
  induction d; intros acc;
    cbn [NilEmpty.string_of_uint digits_value Pos.of_uint_acc];
    [done|..]; eval_digit; rewrite <- IHd; f_equal; lia.
Qed.

Lemma digits_value_uint (d : uint) :
  digits_value 0 (NilEmpty.string_of_uint d) = Some (Z.of_N (Pos.of_uint d)).
Proof.
  induction d; cbn [NilEmpty.string_of_uint digits_value Pos.of_uint];
    [done|..]; eval_digit; [exact IHd|..]; apply digits_value_uint_acc.
Qed.

Lemma string_of_uint_head (d : uint) :
  d ≠ Nil →
  ∃ c s, NilEmpty.string_of_uint d = String c s ∧ digit_of c ≠ None ∧
         NilZero.string_of_uint d = String c s.
Proof.
  intros Hd. destruct d; [done|..]; eexists _, _;
    (split; [reflexivity|split; [by vm_compute|reflexivity]]).
Qed.

(** Reading back what [Itoa] printed. *)
Lemma Atoi_Itoa (p : Z) : 0 ≤ p ≤ max_int64 → Atoi (Itoa p) = Some p.
Proof.
  intros Hp. unfold Itoa.
  assert (N.to_uint (Z.to_N p) ≠ Nil) as Hnil.
  { destruct (Z.to_N p); [done|]. apply DecimalPos.Unsigned.to_uint_nonnil. }
  destruct (string_of_uint_head _ Hnil) as (c & s & Hs & Hc & Hz).
  rewrite Hz, (Atoi_unsigned c s Hc), <- Hs, digits_value_uint.
  change (Pos.of_uint ?d) with (N.of_uint d).
  rewrite DecimalN.Unsigned.of_to, Z2N.id by lia.
  unfold in_int.
  rewrite (proj2 (Z.leb_le min_int64 p)) by (unfold min_int64; lia).
  by rewrite (proj2 (Z.leb_le p max_int64)) by lia.
Qed.


(** X2. [parsePort] reads back the decimal text of a port: for a number
    from 1 to 65535 it returns that number, and for 0 or a number above
    65535 (still an [int]) it returns 80. *)
Theorem parsePort_Itoa (p : Z) :
  0 ≤ p ≤ max_int64 →
  parsePort (Itoa p) = if (1 <=? p) && (p <=? 65535) then p else 80.
Proof.
  intros Hp. unfold parsePort. rewrite (Atoi_Itoa p Hp).
  destruct (Z.leb_spec p 0), (Z.ltb_spec 65535 p), (Z.leb_spec 1 p),
    (Z.leb_spec p 65535); simpl; try lia.
  rewrite Z.mod_small; lia.
Qed.

(** * The manager in a context *)

(** X3. [FromContext] returns the manager that [ContextWith] attached last,
    whatever values other keys have attached since; [ContextWith] with a
    nil manager returns the context as it was; a context that never had a
    manager attached, or has a value of another type under the key, gives
    nil. *)
Theorem FromContext_ContextWith {M : Type} (ctx : Context M) (mgr : M) :
  FromContext (ContextWith ctx (Some mgr)) = Some mgr ∧
  ContextWith ctx None = ctx ∧
  (∀ k v, k ≠ managerKey →
          FromContext (WithValue ctx k v) = FromContext ctx) ∧
  FromContext ([] : Context M) = None ∧
  (∀ v, FromContext (WithValue ctx managerKey (valOther v)) = None).
Proof.
  repeat split.
  - intros k v Hk. unfold FromContext, WithValue. simpl.
    by rewrite decide_False.
Qed.

(** * Paths *)

Lemma string_append_assoc (s1 s2 s3 : string) :
  ((s1 ++ s2) ++ s3)%string = (s1 ++ s2 ++ s3)%string.
Proof.
  induction s1 as [|c s1 IH]; [reflexivity|].
  change (String c ((s1 ++ s2) ++ s3) = String c (s1 ++ s2 ++ s3))%string.
  by f_equal.
Qed.

Lemma cut_prefix_app (prefix s : string) :
  cut_prefix prefix (prefix ++ s) = Some s.
Proof.
  induction prefix as [|a prefix IH]; simpl; [done|].
  by rewrite Ascii.eqb_refl.
Qed.

Lemma Split_not_nil (sep : ascii) (s : string) : Split sep s ≠ [].
Proof.
  induction s as [|c s IH]; simpl; [done|].
  destruct (Ascii.eqb c sep); [done|]. by destruct (Split sep s).
Qed.

Lemma Split_no_sep (sep : ascii) (s : string) :
  has_byte sep s = false → Split sep s = [s].
Proof.
  induction s as [|c s IH]; simpl; [done|].
  intros [Hc Hs]%orb_false_iff. rewrite Hc, (IH Hs). done.
Qed.

Lemma Split_app_sep (sep : ascii) (s s' : string) :
  has_byte sep s = false →
  Split sep (s ++ String sep s') = s :: Split sep s'.
Proof.
  induction s as [|c s IH]; simpl.
  - intros _. by rewrite Ascii.eqb_refl.
  - intros [Hc Hs]%orb_false_iff. rewrite Hc, (IH Hs). done.
Qed.

Lemma Split_parts_no_sep (sep : ascii) (s : string) :
  Forall (λ p, has_byte sep p = false) (Split sep s).
Proof.
  induction s as [|c s IH]; simpl; [by repeat constructor|].
  destruct (Ascii.eqb c sep) eqn:Hc; [by constructor|].
  destruct (Split sep s) as [|p ps]; [by repeat constructor; simpl; rewrite Hc|].
  apply Forall_cons in IH as [Hp Hps]. constructor; [|done].
  simpl. by rewrite Hc, Hp.
Qed.

Lemma action_tag_no_slash (path : string) :
  has_byte "/" (action_tag path) = false.
Proof.
  unfold action_tag, action_parts.
  pose proof (Split_parts_no_sep "/" (TrimPrefix path "/api/nodes/")) as H.
  destruct (Split "/" (TrimPrefix path "/api/nodes/")); [done|].
  by apply Forall_cons in H as [H _].
Qed.

Lemma action_parts_app (t rest : string) :
  has_byte "/" t = false →
  action_parts ("/api/nodes/" ++ t ++ String "/" rest) = t :: Split "/" rest.
Proof.
  intros Ht. unfold action_parts, TrimPrefix.
  rewrite cut_prefix_app. simpl. by apply Split_app_sep.
Qed.

Lemma action_parts_tag (t : string) :
  has_byte "/" t = false → action_parts ("/api/nodes/" ++ t) = [t].
Proof.
  intros Ht. unfold action_parts, TrimPrefix.
  rewrite cut_prefix_app. simpl. by apply Split_no_sep.
Qed.

(** * Properties of the registry *)

Section RegistryFacts.

Variables (probeFunc releaseFunc Ctx : Type).
Variable probe_hook :
  probeFunc → Ctx → Manager probeFunc releaseFunc →
  list (call probeFunc releaseFunc) * (Duration * option string).
Variable release_hook :
  releaseFunc → Manager probeFunc releaseFunc →
  list (call probeFunc releaseFunc).
Variable sort_Slice :
  (Snapshot → Snapshot → bool) → list Snapshot → list Snapshot.
Variable Socksaddr : Type.
Variable zero_Socksaddr : Socksaddr.
Variable ParseSocksaddrHostPort : string → Z → Socksaddr.
Variable SplitHostPort : string → (string * string) + error.
Variable WithTimeout : Ctx → Duration → Ctx.

#[local] Abbreviation entry := (entry probeFunc releaseFunc) (only parsing).
#[local] Abbreviation Manager := (Manager probeFunc releaseFunc) (only parsing).
#[local] Abbreviation call := (call probeFunc releaseFunc) (only parsing).
#[local] Abbreviation op := (op probeFunc releaseFunc Ctx) (only parsing).
#[local] Abbreviation new_entry :=
  (@new_entry probeFunc releaseFunc) (only parsing).
#[local] Abbreviation NewManager :=
  (@NewManager probeFunc releaseFunc) (only parsing).
#[local] Abbreviation Request := (Request Ctx) (only parsing).
#[local] Abbreviation NewManagerFor :=
  (@NewManagerFor probeFunc releaseFunc Socksaddr zero_Socksaddr
     ParseSocksaddrHostPort SplitHostPort) (only parsing).
#[local] Abbreviation DestinationForProbe :=
  (@DestinationForProbe Socksaddr zero_Socksaddr) (only parsing).
#[local] Abbreviation handleNodeAction :=
  (handleNodeAction probe_hook release_hook WithTimeout) (only parsing).
#[local] Abbreviation probe_outcome :=
  (probe_outcome probe_hook WithTimeout) (only parsing).
#[local] Abbreviation release_outcome :=
  (release_outcome release_hook) (only parsing).

(** ** Reading the store after a method ran on one entry *)

Lemma store_at_entry (l l' : loc) (f : entry → entry) (m : Manager) :
  store (at_entry l f m) !! l' =
  if decide (l = l') then f <$> store m !! l' else store m !! l'.
Proof.
  unfold at_entry; simpl. case_decide as Hl.
  - subst l'. apply list_lookup_alter_eq.
  - by apply list_lookup_alter_ne.
Qed.

Lemma nodes_at_entry (l : loc) (f : entry → entry) (m : Manager) :
  nodes (at_entry l f m) = nodes m.
Proof. reflexivity. Qed.

Lemma length_at_entry (l : loc) (f : entry → entry) (m : Manager) :
  length (store (at_entry l f m)) = length (store m).
Proof. unfold at_entry; simpl. apply length_alter. Qed.

Lemma at_entry_fixed (l : loc) (f : entry → entry) (m : Manager) :
  (∀ e, store m !! l = Some e → f e = e) → at_entry l f m = m.
Proof.
  intros Hf. destruct m as [ns st]. unfold at_entry; simpl in *. f_equal.
  apply list_eq. intros j. destruct (decide (l = j)) as [<-|Hne].
  - rewrite list_lookup_alter_eq. destruct (st !! l) as [e|] eqn:He; simpl.
    + by rewrite Hf.
    + done.
  - by rewrite list_lookup_alter_ne.
Qed.

Lemma set_info_same (e : entry) : set_info (info e) e = e.
Proof. by destruct e. Qed.

Lemma RecordFailure_at_entry (h : option EntryHandle) (er : error)
    (now : Time) (m : Manager) (l : loc) :
  deref h = Some l →
  RecordFailure h (Some er) now m =
  Some (at_entry l (λ e, default e (recordFailure (Some er) now e)) m).
Proof.
  intros Hh. unfold RecordFailure, at_entry. rewrite Hh.
  destruct m as [ns st]; simpl.
  destruct (st !! l) as [e|] eqn:He; simpl; do 2 f_equal.
  - apply list_eq. intros j. destruct (decide (l = j)) as [<-|Hne].
    + rewrite list_lookup_alter_eq, He.
      by rewrite list_lookup_insert_eq by (by eapply lookup_lt_Some).
    + by rewrite list_lookup_alter_ne, list_lookup_insert_ne.
  - apply list_eq. intros j. destruct (decide (l = j)) as [<-|Hne].
    + by rewrite list_lookup_alter_eq, He.
    + by rewrite list_lookup_alter_ne.
Qed.

(** ** Register *)

Lemma Register_existing (i : NodeInfo) (m : Manager) (l : loc) :
  nodes m !! Tag i = Some l →
  Register i m = (at_entry l (set_info i) m, handle_to l).
Proof. intros H. unfold Register. by rewrite H. Qed.

Lemma Register_fresh (i : NodeInfo) (m : Manager) :
  nodes m !! Tag i = None →
  Register i m =
  (mkManager (<[Tag i := length (store m)]> (nodes m))
             (store m ++ [new_entry i]),
   handle_to (length (store m))).
Proof. intros H. unfold Register. by rewrite H. Qed.

Lemma at_entry_wf (l : loc) (f : entry → entry) (m : Manager) :
  wf m → wf (at_entry l f m).
Proof.
  intros [Hr Hi]. split; [|done].
  intros tag l0. rewrite nodes_at_entry, length_at_entry. apply Hr.
Qed.

Lemma Register_wf (i : NodeInfo) (m : Manager) : wf m → wf (Register i m).1.
Proof.
  intros [Hrange Hinj].
  destruct (nodes m !! Tag i) as [l|] eqn:Hl.
  - rewrite (Register_existing i m l Hl). by apply at_entry_wf.
  - rewrite (Register_fresh i m Hl). set (l := length (store m)) in *.
    split; simpl.
    + intros tag l0. rewrite length_app; simpl.
      destruct (decide (Tag i = tag)) as [<-|Hne].
      * rewrite lookup_insert_eq. intros [= <-]. unfold l; lia.
      * rewrite lookup_insert_ne by done. intros H0.
        apply Hrange in H0. lia.
    + intros t1 t2 l0.
      destruct (decide (Tag i = t1)) as [<-|H1];
        destruct (decide (Tag i = t2)) as [<-|H2]; try done.
      * rewrite lookup_insert_eq, lookup_insert_ne by done.
        intros [= <-] H0. apply Hrange in H0. unfold l in *; lia.
      * rewrite lookup_insert_eq, lookup_insert_ne by done.
        intros H0 [= <-]. apply Hrange in H0. unfold l in *; lia.
      * rewrite !lookup_insert_ne by done. eauto.
Qed.

(** C1. [Register] on a tag that is already registered hands back a handle
    to the entry that is there, replaces its [info] and leaves its failure
    count, blacklist flag and expiry, last error, last failure and success
    times, last probe latency and active counter (and its hooks) as they
    were, and touches no other entry; on a new tag it adds one entry whose
    runtime state is all zero values; registering the same [info] a second
    time changes nothing. *)
Theorem Register_keeps_runtime_state (i : NodeInfo) (m : Manager) :
  wf m →
  let m' := fst (Register i m) in
  let h := snd (Register i m) in
  (∀ l, nodes m !! Tag i = Some l →
     h = handle_to l ∧ nodes m' = nodes m ∧
     (∃ e, store m !! l = Some e ∧ store m' !! l = Some (set_info i e) ∧
           info (set_info i e) = i ∧
           runtime (set_info i e) = runtime e ∧
           probe (set_info i e) = probe e ∧
           release (set_info i e) = release e) ∧
     (∀ l', l' ≠ l → store m' !! l' = store m !! l')) ∧
  (nodes m !! Tag i = None →
     ∃ l, h = handle_to l ∧ store m !! l = None ∧
          nodes m' = <[Tag i := l]> (nodes m) ∧
          store m' !! l = Some (new_entry i) ∧
          runtime (new_entry i) =
            (0, false, zero_time, EmptyString, zero_time, zero_time, 0, 0) ∧
          (∀ l', l' ≠ l → store m' !! l' = store m !! l')) ∧
  Register i m' = (m', h) ∧
  wf m'.
Proof.
  intros [Hrange Hinj] m' h.
  destruct (nodes m !! Tag i) as [l|] eqn:Hl.
  - pose proof (Register_existing i m l Hl) as HR.
    assert (m' = at_entry l (set_info i) m) as -> by (unfold m'; by rewrite HR).
    assert (h = handle_to l) as -> by (unfold h; by rewrite HR).
    clear HR.
    destruct (lookup_lt_is_Some_2 (store m) l (Hrange _ _ Hl)) as [e He].
    split; [|split; [done|split]].
    + intros l0 [= <-]. split; [done|]. split; [done|]. split.
      * exists e. rewrite store_at_entry, decide_True, He by done. done.
      * intros l' Hne. by rewrite store_at_entry, decide_False.
    + rewrite (Register_existing i _ l) by done. f_equal.
      apply at_entry_fixed. intros e'.
      rewrite store_at_entry, decide_True, He by done. simpl.
      intros [= <-]. done.
    + apply at_entry_wf. by split.
  - pose proof (Register_fresh i m Hl) as HR.
    set (l := length (store m)) in *.
    assert (m' = mkManager (<[Tag i := l]> (nodes m))
                           (store m ++ [new_entry i])) as ->
      by (unfold m'; by rewrite HR).
    assert (h = handle_to l) as -> by (unfold h; by rewrite HR).
    clear HR.
    split; [done|]. split; [|split].
    + intros _. exists l. split; [done|]. split.
      { by apply lookup_ge_None_2. }
      split; [done|]. split.
      { simpl. apply list_lookup_middle. done. }
      split; [done|].
      intros l' Hne. simpl. destruct (decide (l' < l)%nat).
      * by rewrite lookup_app_l.
      * rewrite !lookup_ge_None_2; [done|unfold l in *; lia|].
        rewrite length_app; simpl. unfold l in *; lia.
    + rewrite (Register_existing i _ l) by (simpl; by rewrite lookup_insert_eq).
      f_equal. apply at_entry_fixed. simpl.
      intros e. rewrite list_lookup_middle by done. by intros [= <-].
    + pose proof (Register_wf i m (conj Hrange Hinj)) as Hw.
      by rewrite (Register_fresh i m Hl) in Hw.
Qed.

(** ** recordSuccess *)

(** C6. [recordSuccess] writes the last-success time and nothing else: the
    blacklist flag and expiry, the failure count, the last error, the
    last-failure time, the active counter and the last probe latency (and
    identity and hooks) stay as they were; through a handle, only the entry
    the handle leads to is written and the node map is untouched. *)
Theorem recordSuccess_only_sets_lastOK (h : option EntryHandle) (now : Time)
    (m : Manager) (e : entry) :
  (lastOK (recordSuccess now e) = now ∧
   blacklist (recordSuccess now e) = blacklist e ∧
   until (recordSuccess now e) = until e ∧
   failure (recordSuccess now e) = failure e ∧
   lastError (recordSuccess now e) = lastError e ∧
   lastFail (recordSuccess now e) = lastFail e ∧
   active (recordSuccess now e) = active e ∧
   lastProbe (recordSuccess now e) = lastProbe e ∧
   info (recordSuccess now e) = info e ∧
   probe (recordSuccess now e) = probe e ∧
   release (recordSuccess now e) = release e) ∧
  nodes (RecordSuccess h now m) = nodes m ∧
  (∀ l, store (RecordSuccess h now m) !! l =
        if decide (deref h = Some l)
        then recordSuccess now <$> store m !! l
        else store m !! l).
Proof.
  split; [by repeat split|]. unfold RecordSuccess.
  destruct (deref h) as [l0|].
  - split; [done|]. intros l. rewrite store_at_entry.
    destruct (decide (l0 = l)) as [->|Hne].
    + by rewrite decide_True.
    + rewrite decide_False; [done|congruence].
  - split; [done|]. intros l. by rewrite decide_False.
Qed.

(** ** Nil handles *)

(** C9. Every method of [*EntryHandle] returns at once on a nil handle or
    on a handle whose [ref] is nil: the manager is left as it was and
    nothing panics, not even [RecordFailure] with a nil error. *)
Theorem EntryHandle_methods_nil_safe (h : option EntryHandle) (m : Manager)
    (err : option error) (now t : Time)
    (pf : option probeFunc) (rf : option releaseFunc) :
  nil_handle h →
  RecordFailure h err now m = Some m ∧
  RecordSuccess h now m = m ∧
  Blacklist h t m = m ∧
  ClearBlacklist h m = m ∧
  IncActive h m = m ∧
  DecActive h m = m ∧
  SetProbe h pf m = m ∧
  SetRelease h rf m = m.
Proof.
  intros [-> | ->]; repeat split; reflexivity.
Qed.

(** ** The store and the node map across calls *)

Lemma run_call_store (c : call) (m m' : Manager) :
  run_call c m = Some m' →
  store m' =
    match call_target c m with
    | Some l => alter (call_method c) l (store m)
    | None => store m
    end ++ call_alloc c m
  ∧ nodes m' = call_nodes c m.
Proof.
  destruct c as [i|h err now|h now|h t|h|h|h|h fn|h fn]; simpl;
    try (intros [= <-];
         unfold RecordSuccess, Blacklist, ClearBlacklist, IncActive,
           DecActive, SetProbe, SetRelease;
         destruct (deref h); simpl; rewrite app_nil_r; split; reflexivity).
  - intros [= <-]. unfold Register.
    destruct (nodes m !! Tag i); simpl; [by rewrite app_nil_r|done].
  - destruct (deref h) as [l|] eqn:Hh.
    + destruct err as [er|].
      * rewrite (RecordFailure_at_entry h er now m l Hh). intros [= <-].
        simpl. by rewrite app_nil_r.
      * unfold RecordFailure. rewrite Hh.
        destruct (store m !! l) as [e|] eqn:He; simpl; [done|].
        intros [= <-]. rewrite app_nil_r. split; [|done].
        apply list_eq. intros j. destruct (decide (l = j)) as [<-|Hne].
        -- by rewrite list_lookup_alter_eq, He.
        -- by rewrite list_lookup_alter_ne.
    + unfold RecordFailure. rewrite Hh. intros [= <-].
      simpl. by rewrite app_nil_r.
Qed.

(** An entry object stays where it is: a call changes it in place through
    [call_method], or leaves it. *)
Lemma run_call_lookup_old (c : call) (m m' : Manager) (l : loc) (e : entry) :
  run_call c m = Some m' → store m !! l = Some e →
  store m' !! l =
  Some (if decide (call_target c m = Some l) then call_method c e else e).
Proof.
  intros Hrun He. apply run_call_store in Hrun as [-> _].
  apply lookup_app_l_Some.
  destruct (call_target c m) as [l0|]; [|by rewrite decide_False].
  destruct (decide (l0 = l)) as [->|Hne].
  - by rewrite decide_True, list_lookup_alter_eq, He.
  - rewrite decide_False by congruence. by rewrite list_lookup_alter_ne.
Qed.

(** A new entry object comes from [Register] on a new tag, with zero
    runtime state. *)
Lemma run_call_lookup_new (c : call) (m m' : Manager) (l : loc) (e' : entry) :
  run_call c m = Some m' → store m !! l = None → store m' !! l = Some e' →
  ∃ i, c = CallRegister i ∧ nodes m !! Tag i = None ∧ e' = new_entry i ∧
       l = length (store m).
Proof.
  intros Hrun Hnone He'. apply run_call_store in Hrun as [Hst _].
  rewrite Hst in He'. apply lookup_ge_None_1 in Hnone.
  assert (length (match call_target c m with
                  | Some l0 => alter (call_method c) l0 (store m)
                  | None => store m
                  end) = length (store m)) as Hlen.
  { destruct (call_target c m); [apply length_alter|done]. }
  rewrite lookup_app_r in He' by lia. rewrite Hlen in He'.
  destruct c; simpl in He'; try by rewrite lookup_nil in He'.
  destruct (nodes m !! Tag i) eqn:Hi; [by rewrite lookup_nil in He'|].
  exists i. apply list_lookup_singleton_Some in He' as [Hl <-].
  repeat split; try done. lia.
Qed.

Lemma run_call_length (c : call) (m m' : Manager) :
  run_call c m = Some m' → (length (store m) ≤ length (store m'))%nat.
Proof.
  intros Hrun. apply run_call_store in Hrun as [-> _].
  rewrite length_app. destruct (call_target c m); [rewrite length_alter|]; lia.
Qed.

(** The pointer of a registered tag never changes. *)
Lemma run_call_nodes_old (c : call) (m m' : Manager) (tag : string) (l : loc) :
  run_call c m = Some m' → nodes m !! tag = Some l → nodes m' !! tag = Some l.
Proof.
  intros Hrun Hl. apply run_call_store in Hrun as [_ ->].
  destruct c; simpl; try done.
  destruct (nodes m !! Tag i) eqn:Hi; [done|].
  rewrite lookup_insert_ne; [done|congruence].
Qed.

Lemma run_call_nodes_new (c : call) (m m' : Manager) (tag : string) (l : loc) :
  run_call c m = Some m' → nodes m !! tag = None → nodes m' !! tag = Some l →
  l = length (store m).
Proof.
  intros Hrun Hnone Hl. apply run_call_store in Hrun as [_ Hn].
  rewrite Hn in Hl. destruct c; simpl in Hl; try congruence.
  destruct (nodes m !! Tag i) eqn:Hi; [congruence|].
  destruct (decide (Tag i = tag)) as [<-|Hne].
  - rewrite lookup_insert_eq in Hl. congruence.
  - rewrite lookup_insert_ne in Hl by done. congruence.
Qed.

Lemma NewManager_wf : wf NewManager.
Proof. split; intros *; unfold NewManager; simpl; by rewrite lookup_empty. Qed.

Lemma run_call_wf (c : call) (m m' : Manager) :
  wf m → run_call c m = Some m' → wf m'.
Proof.
  intros Hwf Hrun. destruct c as [i| | | | | | | |];
    try (destruct Hwf as [Hr Hi]; pose proof (run_call_length _ _ _ Hrun);
         apply run_call_store in Hrun as [_ Hn]; simpl in Hn;
         split; rewrite Hn; [intros tag l Hl; apply Hr in Hl; lia | done]).
  simpl in Hrun. injection Hrun as <-. by apply Register_wf.
Qed.

Lemma run_calls_wf (cs : list call) (m m' : Manager) :
  wf m → run_calls cs m = Some m' → wf m'.
Proof.
  revert m. induction cs as [|c cs IH]; simpl; intros m Hwf.
  - by intros [= <-].
  - destruct (run_call c m) as [m1|] eqn:Hc; [|done].
    apply IH. by eapply run_call_wf.
Qed.

Lemma run_calls_nodes_old (cs : list call) (m m' : Manager) (tag : string)
    (l : loc) :
  run_calls cs m = Some m' → nodes m !! tag = Some l → nodes m' !! tag = Some l.
Proof.
  revert m. induction cs as [|c cs IH]; simpl; intros m.
  - by intros [= <-].
  - destruct (run_call c m) as [m1|] eqn:Hc; [|done].
    intros Hrun Hl. apply (IH m1 Hrun). by eapply run_call_nodes_old.
Qed.

(** ** Probe and Release, case by case *)

Lemma Probe_unknown (ctx : Ctx) (tag : string) (m : Manager) :
  nodes m !! tag = None →
  Probe probe_hook ctx tag m = Some (m, (0, Some (errNodeNotFound tag))).
Proof. intros H. unfold Probe, Manager_entry. by rewrite H. Qed.

Lemma Probe_no_hook (ctx : Ctx) (tag : string) (m : Manager) (l : loc) :
  nodes m !! tag = Some l → probe_at m l = None →
  Probe probe_hook ctx tag m = Some (m, (0, Some errProbeNotAvailable)).
Proof. intros H1 H2. unfold Probe, Manager_entry. by rewrite H1, H2. Qed.

Lemma Probe_hooked (ctx : Ctx) (tag : string) (m : Manager) (l : loc)
    (fn : probeFunc) :
  nodes m !! tag = Some l → probe_at m l = Some fn →
  Probe probe_hook ctx tag m =
  match run_calls (probe_hook fn ctx m).1 m with
  | None => None
  | Some m' =>
      match (probe_hook fn ctx m).2.2 with
      | Some msg => Some (m', (0, Some (errForeign msg)))
      | None =>
          Some (at_entry l (recordProbeLatency (probe_hook fn ctx m).2.1) m',
                ((probe_hook fn ctx m).2.1, None))
      end
  end.
Proof.
  intros H1 H2. unfold Probe, Manager_entry. rewrite H1, H2.
  by destruct (probe_hook fn ctx m) as [cs [d err]].
Qed.

Lemma Release_unknown (tag : string) (m : Manager) :
  nodes m !! tag = None →
  Release release_hook tag m = Some (m, Some (errNodeNotFound tag)).
Proof. intros H. unfold Release, Manager_entry. by rewrite H. Qed.

Lemma Release_no_hook (tag : string) (m : Manager) (l : loc) :
  nodes m !! tag = Some l → release_at m l = None →
  Release release_hook tag m = Some (m, Some errReleaseNotAvailable).
Proof. intros H1 H2. unfold Release, Manager_entry. by rewrite H1, H2. Qed.

Lemma Release_hooked (tag : string) (m : Manager) (l : loc)
    (fn : releaseFunc) :
  nodes m !! tag = Some l → release_at m l = Some fn →
  Release release_hook tag m =
  match run_calls (release_hook fn m) m with
  | None => None
  | Some m' => Some (m', None)
  end.
Proof. intros H1 H2. unfold Release, Manager_entry. by rewrite H1, H2. Qed.

(** A probe that returns no error ran the hook of the entry and then
    stored the latency in that entry. *)
Lemma Probe_success_inv (ctx : Ctx) (tag : string) (m m2 : Manager)
    (d : Duration) :
  Probe probe_hook ctx tag m = Some (m2, (d, None)) →
  ∃ l fn m1,
    nodes m !! tag = Some l ∧ probe_at m l = Some fn ∧
    (probe_hook fn ctx m).2 = (d, None) ∧
    run_calls (probe_hook fn ctx m).1 m = Some m1 ∧
    m2 = at_entry l (recordProbeLatency d) m1.
Proof.
  destruct (nodes m !! tag) as [l|] eqn:Hl.
  - destruct (probe_at m l) as [fn|] eqn:Hp.
    + rewrite (Probe_hooked ctx tag m l fn Hl Hp).
      destruct (probe_hook fn ctx m) as [cs [d0 err]] eqn:Hh; simpl.
      destruct (run_calls cs m) as [m1|] eqn:Hcs; [|done].
      destruct err; [done|]. intros [= Hm Hd]. subst m2 d0.
      exists l, fn, m1. by rewrite Hh.
    + by rewrite (Probe_no_hook ctx tag m l Hl Hp).
  - by rewrite (Probe_unknown ctx tag m Hl).
Qed.

(** A call that went through to the hook returns the error of the hook or
    none, never one of the errors built in manager.go. *)
Ltac hook_result :=
  match goal with
  | H : match run_calls ?cs ?m with _ => _ end = _ |- _ =>
      destruct (run_calls cs m); [|discriminate H];
      try (destruct (_.2.2)); discriminate H
  end.

(** C4. [Probe] and [Release] return the not-found error exactly when the
    tag is not in the node map, and the not-available error exactly when
    the tag is registered and the probe (release) hook of its entry is nil;
    in these cases the manager is left as it was. *)
Theorem Probe_Release_errors (ctx : Ctx) (tag : string) (m : Manager) :
  wf m →
  ((nodes m !! tag = None →
    Probe probe_hook ctx tag m = Some (m, (0, Some (errNodeNotFound tag)))) ∧
   (∀ m' d t, Probe probe_hook ctx tag m = Some (m', (d, Some (errNodeNotFound t))) →
              nodes m !! tag = None ∧ m' = m) ∧
   (∀ e, entry_of m tag = Some e → probe e = None →
         Probe probe_hook ctx tag m = Some (m, (0, Some errProbeNotAvailable))) ∧
   (∀ m' d, Probe probe_hook ctx tag m = Some (m', (d, Some errProbeNotAvailable)) →
            (∃ e, entry_of m tag = Some e ∧ probe e = None) ∧ m' = m)) ∧
  ((nodes m !! tag = None →
    Release release_hook tag m = Some (m, Some (errNodeNotFound tag))) ∧
   (∀ m' t, Release release_hook tag m = Some (m', Some (errNodeNotFound t)) →
            nodes m !! tag = None ∧ m' = m) ∧
   (∀ e, entry_of m tag = Some e → release e = None →
         Release release_hook tag m = Some (m, Some errReleaseNotAvailable)) ∧
   (∀ m' , Release release_hook tag m = Some (m', Some errReleaseNotAvailable) →
            (∃ e, entry_of m tag = Some e ∧ release e = None) ∧ m' = m)).
Proof.
  intros [Hrange _]. unfold entry_of.
  destruct (nodes m !! tag) as [l|] eqn:Hl.
  - destruct (lookup_lt_is_Some_2 (store m) l (Hrange _ _ Hl)) as [e He].
    split.
    + destruct (probe_at m l) as [fn|] eqn:Hp.
      * rewrite (Probe_hooked ctx tag m l fn Hl Hp).
        unfold probe_at in Hp. rewrite He in Hp.
        repeat split; intros; try done; try congruence; hook_result.
      * rewrite (Probe_no_hook ctx tag m l Hl Hp).
        unfold probe_at in Hp. rewrite He in Hp.
        repeat split; intros; try done; try congruence. by exists e.
    + destruct (release_at m l) as [fn|] eqn:Hp.
      * rewrite (Release_hooked tag m l fn Hl Hp).
        unfold release_at in Hp. rewrite He in Hp.
        repeat split; intros; try done; try congruence; hook_result.
      * rewrite (Release_no_hook tag m l Hl Hp).
        unfold release_at in Hp. rewrite He in Hp.
        repeat split; intros; try done; try congruence. by exists e.
  - rewrite (Probe_unknown ctx tag m Hl), (Release_unknown tag m Hl).
    repeat split; intros; try done; try congruence.
Qed.

(** ** Release and the blacklist *)

Lemma call_method_cleared (c : call) (l : loc) (m : Manager) (e : entry) :
  blacklists l c = false → call_target c m = Some l →
  blacklist e = false → until e = zero_time →
  blacklist (call_method c e) = false ∧ until (call_method c e) = zero_time.
Proof.
  destruct c as [i|h err now|h now|h t|h|h|h|h fn|h fn]; simpl; try done.
  - by destruct err.
  - intros Hb Ht. rewrite Ht in Hb. by rewrite bool_decide_eq_false in Hb.
Qed.

Lemma run_call_cleared (c : call) (l : loc) (m m' : Manager) :
  run_call c m = Some m' → blacklists l c = false →
  cleared l m → cleared l m'.
Proof.
  intros Hrun Hb (e & He & Hbl & Hu). unfold cleared.
  rewrite (run_call_lookup_old c m m' l e Hrun He).
  eexists. split; [done|]. case_decide as Ht; [|done].
  by eapply call_method_cleared.
Qed.

Lemma run_calls_cleared (cs : list call) (l : loc) (m m' : Manager) :
  run_calls cs m = Some m' →
  forallb (λ c, negb (blacklists l c)) cs = true →
  cleared l m → cleared l m'.
Proof.
  revert m. induction cs as [|c cs IH]; simpl; intros m.
  - by intros [= <-].
  - destruct (run_call c m) as [m1|] eqn:Hc; [|done].
    intros Hrun [Hb Hcs]%andb_true_iff Hcl. apply (IH m1 Hrun Hcs).
    eapply run_call_cleared; [done| |done]. by apply negb_true_iff.
Qed.

Lemma run_calls_lookup_Some (cs : list call) (l : loc) (m m' : Manager) :
  run_calls cs m = Some m' → is_Some (store m !! l) → is_Some (store m' !! l).
Proof.
  revert m. induction cs as [|c cs IH]; simpl; intros m.
  - by intros [= <-].
  - destruct (run_call c m) as [m1|] eqn:Hc; [|done].
    intros Hrun [e He]. apply (IH m1 Hrun).
    rewrite (run_call_lookup_old c m m1 l e Hc He). eauto.
Qed.

Lemma run_calls_app (cs1 cs2 : list call) (m : Manager) :
  run_calls (cs1 ++ cs2) m =
  match run_calls cs1 m with
  | None => None
  | Some m1 => run_calls cs2 m1
  end.
Proof.
  revert m. induction cs1 as [|c cs1 IH]; simpl; intros m; [done|].
  destruct (run_call c m); [apply IH|done].
Qed.

(** C7. When the release hook of a registered entry clears the blacklist
    (the hook of the pool adapter), a [Release] of its tag that returns no
    error leaves the entry not blacklisted and its expiry at the zero
    time. *)
Theorem Release_clears_blacklist (tag : string) (m m' : Manager) (l : loc)
    (fn : releaseFunc) :
  wf m →
  nodes m !! tag = Some l →
  release_at m l = Some fn →
  clears_blacklist l (release_hook fn m) →
  Release release_hook tag m = Some (m', None) →
  ∃ e', entry_of m' tag = Some e' ∧
        blacklist e' = false ∧ until e' = zero_time.
Proof.
  intros [Hrange _] Hl Hfn (pre & h & post & Hcs & Hh & Hpost).
  rewrite (Release_hooked tag m l fn Hl Hfn), Hcs, run_calls_app.
  destruct (run_calls pre m) as [m1|] eqn:Hpre; [|done]. simpl.
  destruct (run_calls post (ClearBlacklist h m1)) as [m2|] eqn:Hrun; [|done].
  intros [= <-].
  assert (is_Some (store m1 !! l)) as [e1 He1].
  { eapply run_calls_lookup_Some; [done|].
    apply lookup_lt_is_Some_2. eauto. }
  assert (cleared l (ClearBlacklist h m1)) as Hcl.
  { unfold ClearBlacklist. rewrite Hh. exists (clearBlacklist e1).
    rewrite store_at_entry, decide_True, He1 by done. done. }
  destruct (run_calls_cleared post l _ m2 Hrun Hpost Hcl) as (e' & He' & ? & ?).
  exists e'. split; [|done]. unfold entry_of.
  assert (nodes m2 !! tag = Some l) as ->; [|done].
  eapply run_calls_nodes_old; [done|]. unfold ClearBlacklist. rewrite Hh.
  rewrite nodes_at_entry. by eapply run_calls_nodes_old.
Qed.

(** ** The stored probe latency *)

Lemma call_method_lastProbe (c : call) (e : entry) :
  lastProbe (call_method c e) = lastProbe e.
Proof. destruct c; simpl; try done. by destruct err. Qed.


Lemma Probe_state_inv (ctx : Ctx) (tag : string) (m m2 : Manager)
    (r : Duration * option error) :
  Probe probe_hook ctx tag m = Some (m2, r) →
  m2 = m ∨
  ∃ l fn m1,
    nodes m !! tag = Some l ∧ probe_at m l = Some fn ∧
    run_calls (probe_hook fn ctx m).1 m = Some m1 ∧
    (m2 = m1 ∨ ∃ d, m2 = at_entry l (recordProbeLatency d) m1).
Proof.
  destruct (nodes m !! tag) as [l|] eqn:Hl.
  - destruct (probe_at m l) as [fn|] eqn:Hp.
    + rewrite (Probe_hooked ctx tag m l fn Hl Hp).
      destruct (run_calls _ m) as [m1|] eqn:Hcs; [|done].
      intros Hres. right. exists l, fn, m1. repeat split; try done.
      destruct (_.2.2); injection Hres as <- <-; eauto.
    + rewrite (Probe_no_hook ctx tag m l Hl Hp). intros [= <- <-]. by left.
  - rewrite (Probe_unknown ctx tag m Hl). intros [= <- <-]. by left.
Qed.

Lemma Release_state_inv (tag : string) (m m2 : Manager) (r : option error) :
  Release release_hook tag m = Some (m2, r) →
  m2 = m ∨
  ∃ l fn, nodes m !! tag = Some l ∧ release_at m l = Some fn ∧
          run_calls (release_hook fn m) m = Some m2.
Proof.
  destruct (nodes m !! tag) as [l|] eqn:Hl.
  - destruct (release_at m l) as [fn|] eqn:Hp.
    + rewrite (Release_hooked tag m l fn Hl Hp).
      destruct (run_calls _ m) as [m1|] eqn:Hcs; [|done].
      intros [= <- <-]. right. by exists l, fn.
    + rewrite (Release_no_hook tag m l Hl Hp). intros [= <- <-]. by left.
  - rewrite (Release_unknown tag m Hl). intros [= <- <-]. by left.
Qed.

Lemma run_op_wf (o : op) (m m' : Manager) :
  wf m → run_op probe_hook release_hook o m = Some m' → wf m'.
Proof.
  intros Hwf. destruct o as [c|ctx tag|tag]; simpl.
  - by apply run_call_wf.
  - destruct (Probe probe_hook ctx tag m) as [[m2 r]|] eqn:HP; [|done].
    intros [= <-].
    apply Probe_state_inv in HP as [->|(l & fn & m1 & _ & _ & Hcs & Hm)];
      [done|].
    pose proof (run_calls_wf _ _ _ Hwf Hcs).
    destruct Hm as [->|[d ->]]; [done|by apply at_entry_wf].
  - destruct (Release release_hook tag m) as [[m2 r]|] eqn:HR; [|done].
    intros [= <-].
    apply Release_state_inv in HR as [->|(l & fn & _ & _ & Hcs)]; [done|].
    by eapply run_calls_wf.
Qed.

Lemma run_wf (os : list op) (m m' : Manager) :
  wf m → run probe_hook release_hook os m = Some m' → wf m'.
Proof.
  revert m. induction os as [|o os IH]; simpl; intros m Hwf.
  - by intros [= <-].
  - destruct (run_op probe_hook release_hook o m) as [m1|] eqn:Ho; [|done].
    apply IH. by eapply run_op_wf.
Qed.

Lemma run_call_unprobed (tag : string) (c : call) (m m' : Manager) :
  wf m → run_call c m = Some m' → unprobed tag m → unprobed tag m'.
Proof.
  intros [Hr _] Hrun Hun l e' Hl He'.
  destruct (nodes m !! tag) as [l0|] eqn:Hl0.
  - rewrite (run_call_nodes_old c m m' tag l0 Hrun Hl0) in Hl.
    injection Hl as ->.
    destruct (lookup_lt_is_Some_2 (store m) l (Hr _ _ Hl0)) as [e He].
    rewrite (run_call_lookup_old c m m' l e Hrun He) in He'.
    injection He' as <-. specialize (Hun l e Hl0 He).
    case_decide; [by rewrite call_method_lastProbe|done].
  - pose proof (run_call_nodes_new c m m' tag l Hrun Hl0 Hl) as ->.
    destruct (run_call_lookup_new c m m' (length (store m)) e' Hrun)
      as (i & _ & _ & -> & _); [by apply lookup_ge_None_2|done|done].
Qed.

Lemma run_calls_unprobed (tag : string) (cs : list call) (m m' : Manager) :
  wf m → run_calls cs m = Some m' → unprobed tag m → unprobed tag m'.
Proof.
  revert m. induction cs as [|c cs IH]; simpl; intros m Hwf.
  - by intros [= <-].
  - destruct (run_call c m) as [m1|] eqn:Hc; [|done].
    intros Hrun Hun. apply (IH m1); [by eapply run_call_wf|done|].
    by eapply run_call_unprobed.
Qed.

Lemma run_op_unprobed (tag : string) (o : op) (m m' : Manager) :
  wf m → probes_tag tag o = false → run_op probe_hook release_hook o m = Some m' →
  unprobed tag m → unprobed tag m'.
Proof.
  intros Hwf Hp. destruct o as [c|ctx t|t]; simpl.
  - by apply run_call_unprobed.
  - simpl in Hp. apply bool_decide_eq_false in Hp.
    destruct (Probe probe_hook ctx t m) as [[m2 r]|] eqn:HP; [|done].
    intros [= <-] Hun.
    apply Probe_state_inv in HP as [->|(l & fn & m1 & Hl & _ & Hcs & Hm)];
      [done|].
    pose proof (run_calls_unprobed tag _ _ _ Hwf Hcs Hun) as Hun1.
    destruct Hm as [->|[d ->]]; [done|].
    pose proof (run_calls_wf _ _ _ Hwf Hcs) as [_ Hinj].
    pose proof (run_calls_nodes_old _ _ _ _ _ Hcs Hl) as Hl1.
    intros l' e'. rewrite nodes_at_entry, store_at_entry. intros Hl'.
    rewrite decide_False; [by apply Hun1|].
    intros ->. apply Hp. by eapply Hinj.
  - destruct (Release release_hook t m) as [[m2 r]|] eqn:HR; [|done].
    intros [= <-] Hun.
    apply Release_state_inv in HR as [->|(l & fn & _ & _ & Hcs)]; [done|].
    by eapply run_calls_unprobed.
Qed.

Lemma run_unprobed (tag : string) (os : list op) (m m' : Manager) :
  wf m → forallb (λ o, negb (probes_tag tag o)) os = true →
  run probe_hook release_hook os m = Some m' → unprobed tag m → unprobed tag m'.
Proof.
  revert m. induction os as [|o os IH]; simpl; intros m Hwf.
  - by intros _ [= <-].
  - intros [Ho Hos]%andb_true_iff. apply negb_true_iff in Ho.
    destruct (run_op probe_hook release_hook o m) as [m1|] eqn:Hrun; [|done].
    intros Hrest Hun. apply (IH m1); [by eapply run_op_wf|done|done|].
    by eapply run_op_unprobed.
Qed.

(** After a probe that returned no error the entry of the tag holds the
    latency the hook measured. *)
Lemma Probe_success_entry (ctx : Ctx) (tag : string) (m m' : Manager)
    (d : Duration) :
  wf m → Probe probe_hook ctx tag m = Some (m', (d, None)) →
  ∃ e', entry_of m' tag = Some e' ∧ lastProbe e' = d.
Proof.
  intros Hwf HP.
  apply Probe_success_inv in HP as (l & fn & m1 & Hl & _ & _ & Hcs & ->).
  pose proof (run_calls_wf _ _ _ Hwf Hcs) as [Hr _].
  pose proof (run_calls_nodes_old _ _ _ _ _ Hcs Hl) as Hl1.
  destruct (lookup_lt_is_Some_2 (store m1) l (Hr _ _ Hl1)) as [e1 He1].
  exists (recordProbeLatency d e1). unfold entry_of.
  rewrite nodes_at_entry, Hl1, store_at_entry, decide_True, He1 by done.
  done.
Qed.

(** C8. The snapshot of an entry whose tag was never probed, whatever else
    was done to the registry since [NewManager], has [LastLatencyMs] equal
    to -1; after a probe of a tag returned a latency above zero without an
    error, the snapshot of its entry has [LastLatencyMs] equal to that
    latency in whole milliseconds. *)
Theorem snapshot_latency_sentinel :
  (∀ (os : list op) (m : Manager) (tag : string) (e : entry),
     run probe_hook release_hook os NewManager = Some m →
     forallb (λ o, negb (probes_tag tag o)) os = true →
     entry_of m tag = Some e →
     LastLatencyMs (snapshot e) = -1) ∧
  (∀ (ctx : Ctx) (tag : string) (m m' : Manager) (d : Duration),
     wf m → Probe probe_hook ctx tag m = Some (m', (d, None)) → 0 < d →
     ∃ e', entry_of m' tag = Some e' ∧
           LastLatencyMs (snapshot e') = Milliseconds d).
Proof.
  split.
  - intros os m tag e Hrun Hos He.
    assert (unprobed tag m) as Hun.
    { eapply run_unprobed; [apply NewManager_wf|done|done|].
      intros l e0. unfold NewManager; simpl. by rewrite lookup_empty. }
    unfold entry_of in He. destruct (nodes m !! tag) as [l|] eqn:Hl; [|done].
    unfold snapshot; simpl. by rewrite (Hun l e Hl He).
  - intros ctx tag m m' d Hwf HP Hd.
    destruct (Probe_success_entry ctx tag m m' d Hwf HP) as (e' & He' & Hlat).
    exists e'. split; [done|]. unfold snapshot; simpl. rewrite Hlat.
    by rewrite (proj2 (Z.ltb_lt 0 d) Hd).
Qed.

(** C10. An entry whose stored probe latency is zero or below has a
    snapshot with [LastLatencyMs] equal to -1; that is the case of an
    entry whose probe returned the duration 0 without an error, and its
    snapshot then shows the same [LastLatencyMs] and [LastProbeLatency] as
    a newly registered, never probed entry. *)
Theorem snapshot_sentinel_hides_zero_latency :
  (∀ e : entry, lastProbe e ≤ 0 → LastLatencyMs (snapshot e) = -1) ∧
  (∀ (ctx : Ctx) (tag : string) (m m' : Manager),
     wf m → Probe probe_hook ctx tag m = Some (m', (0, None)) →
     ∃ e', entry_of m' tag = Some e' ∧ lastProbe e' = 0 ∧
           LastLatencyMs (snapshot e') = -1 ∧
           LastLatencyMs (snapshot e') =
           LastLatencyMs (snapshot (new_entry (info e'))) ∧
           LastProbeLatency (snapshot e') =
           LastProbeLatency (snapshot (new_entry (info e')))).
Proof.
  split.
  - intros e He. unfold snapshot; simpl.
    by rewrite (proj2 (Z.ltb_ge 0 (lastProbe e)) He).
  - intros ctx tag m m' Hwf HP.
    destruct (Probe_success_entry ctx tag m m' 0 Hwf HP) as (e' & He' & Hlat).
    exists e'. unfold snapshot; simpl. by rewrite Hlat.
Qed.

(** ** The active-connection counter *)

Lemma wrap_small (w x : Z) :
  0 < w → - 2 ^ (w - 1) ≤ x < 2 ^ (w - 1) → wrap w x = x.
Proof.
  intros Hw Hx. unfold wrap.
  assert (2 ^ w = 2 * 2 ^ (w - 1)) as ->.
  { rewrite <- Z.pow_succ_r by lia. f_equal. lia. }
  rewrite Z.mod_small; lia.
Qed.

Lemma call_method_active (c : call) (e : entry) :
  active (call_method c e) =
  match c with
  | CallIncActive _ => int32_add (active e) 1
  | CallDecActive _ => int32_add (active e) (-1)
  | _ => active e
  end.
Proof. destruct c; simpl; try done. by destruct err. Qed.

Lemma run_call_active_ok (c : call) (m m' : Manager) :
  active_ok m → call_guard c m = true → run_call c m = Some m' →
  active_ok m'.
Proof.
  intros Hok Hg Hrun l e' He'.
  destruct (store m !! l) as [e|] eqn:He.
  - rewrite (run_call_lookup_old c m m' l e Hrun He) in He'.
    injection He' as <-. specialize (Hok l e He).
    case_decide as Ht; [|done]. rewrite call_method_active.
    unfold max_int32 in *.
    destruct c; simpl in Ht; try done; simpl in Hg; rewrite Ht, He in Hg.
    + apply Z.ltb_lt in Hg. unfold int32_add, max_int32 in *.
      rewrite wrap_small; [lia|lia|]. change (32 - 1) with 31. lia.
    + apply Z.ltb_lt in Hg. unfold int32_add.
      rewrite wrap_small; [lia|lia|]. change (32 - 1) with 31. lia.
  - destruct (run_call_lookup_new c m m' l e' Hrun He He')
      as (i & _ & _ & -> & _).
    simpl. unfold max_int32. lia.
Qed.

Lemma run_calls_active_ok (cs : list call) (m m' : Manager) :
  active_ok m → calls_guard cs m = true → run_calls cs m = Some m' →
  active_ok m'.
Proof.
  revert m. induction cs as [|c cs IH]; simpl; intros m Hok.
  - by intros _ [= <-].
  - intros [Hc Hcs]%andb_true_iff.
    destruct (run_call c m) as [m1|] eqn:Hrun; [|done].
    apply (IH m1); [|done]. by eapply run_call_active_ok.
Qed.

Lemma at_entry_active_ok (l : loc) (f : entry → entry) (m : Manager) :
  (∀ e, active (f e) = active e) → active_ok m → active_ok (at_entry l f m).
Proof.
  intros Hf Hok l' e'. rewrite store_at_entry. case_decide as Hl; [|by apply Hok].
  destruct (store m !! l') as [e|] eqn:He; [|done]. simpl.
  intros [= <-]. rewrite Hf. by eapply Hok.
Qed.

Lemma run_op_active_ok (o : op) (m m' : Manager) :
  active_ok m → op_guard probe_hook release_hook o m = true → run_op probe_hook release_hook o m = Some m' → active_ok m'.
Proof.
  intros Hok. destruct o as [c|ctx tag|tag]; simpl.
  - by apply run_call_active_ok.
  - intros Hg. destruct (Probe probe_hook ctx tag m) as [[m2 r]|] eqn:HP; [|done].
    intros [= <-].
    apply Probe_state_inv in HP as [->|(l & fn & m1 & Hl & Hp & Hcs & Hm)];
      [done|].
    rewrite Hl, Hp in Hg.
    pose proof (run_calls_active_ok _ _ _ Hok Hg Hcs).
    destruct Hm as [->|[d ->]]; [done|]. by apply at_entry_active_ok.
  - intros Hg. destruct (Release release_hook tag m) as [[m2 r]|] eqn:HR; [|done].
    intros [= <-].
    apply Release_state_inv in HR as [->|(l & fn & Hl & Hp & Hcs)]; [done|].
    rewrite Hl, Hp in Hg. by eapply run_calls_active_ok.
Qed.

(** C5, as the code has it. The counter has no floor: [DecActive] takes 1
    off whatever is there. Along a sequence of operations whose
    [IncActive] and [DecActive] calls are bracketed (each [DecActive]
    finds the counter of its entry above zero, each [IncActive] finds it
    below the largest [int32]), started where all counters are in
    0..2^31-1, every counter stays in 0..2^31-1 after every operation. *)
Theorem active_nonneg_when_bracketed (os : list op) (m : Manager) :
  active_ok m → guarded probe_hook release_hook os m = true →
  ∀ k m', run probe_hook release_hook (take k os) m = Some m' → active_ok m'.
Proof.
  revert m. induction os as [|o os IH]; intros m Hok Hg k m'.
  - rewrite take_nil. by intros [= <-].
  - destruct k as [|k]; simpl; [by intros [= <-]|].
    simpl in Hg. apply andb_true_iff in Hg as [Ho Hg].
    destruct (run_op probe_hook release_hook o m) as [m1|] eqn:Hrun; [|done].
    apply (IH m1); [|done]. by eapply run_op_active_ok.
Qed.

(** ** Strings in byte order *)

Lemma ascii_compare_lt_trans (a b c : ascii) :
  Ascii.compare a b = Lt → Ascii.compare b c = Lt → Ascii.compare a c = Lt.
Proof.
  unfold Ascii.compare. rewrite !N.compare_lt_iff. lia.
Qed.

Lemma string_compare_lt_trans (s1 s2 s3 : string) :
  String.compare s1 s2 = Lt → String.compare s2 s3 = Lt →
  String.compare s1 s3 = Lt.
Proof.
  revert s2 s3. induction s1 as [|a s1 IH]; intros [|b s2] [|c s3];
    simpl; try done.
  destruct (Ascii.compare a b) eqn:Hab; try done.
  - apply Ascii.compare_eq_iff in Hab as ->.
    destruct (Ascii.compare b c); try done. apply IH.
  - intros _. destruct (Ascii.compare b c) eqn:Hbc; try done.
    + apply Ascii.compare_eq_iff in Hbc as <-. by rewrite Hab.
    + by rewrite (ascii_compare_lt_trans a b c Hab Hbc).
Qed.

Lemma string_ltb_false (s1 s2 : string) :
  String.ltb s1 s2 = false ↔ String.compare s2 s1 ≠ Gt.
Proof.
  unfold String.ltb. rewrite (String.compare_antisym s1 s2).
  destruct (String.compare s2 s1); simpl; split; congruence.
Qed.

Lemma name_le_trans (a b c : Snapshot) : name_le a b → name_le b c → name_le a c.
Proof.
  unfold name_le, name_less. rewrite !string_ltb_false.
  intros Hab Hbc.
  destruct (String.compare (Name (snapInfo a)) (Name (snapInfo b))) eqn:H1;
    [|clear Hab|done].
  - apply String.compare_eq_iff in H1. by rewrite H1.
  - destruct (String.compare (Name (snapInfo b)) (Name (snapInfo c))) eqn:H2;
      [| |done].
    + apply String.compare_eq_iff in H2. rewrite <- H2, H1. done.
    + rewrite (string_compare_lt_trans _ _ _ H1 H2). done.
Qed.

Lemma name_le_antisym (a b : Snapshot) :
  name_le a b → name_le b a → name_key a = name_key b.
Proof.
  unfold name_le, name_less, name_key. rewrite !string_ltb_false.
  intros Hab Hba. rewrite String.compare_antisym in Hba.
  destruct (String.compare (Name (snapInfo a)) (Name (snapInfo b))) eqn:H1;
    try done.
  by apply String.compare_eq_iff.
Qed.

Lemma name_less_asym (a b : Snapshot) : name_less a b = true → name_le a b.
Proof.
  unfold name_le, name_less, String.ltb.
  rewrite (String.compare_antisym (Name (snapInfo a))).
  by destruct (String.compare (Name (snapInfo b)) (Name (snapInfo a))).
Qed.

#[local] Instance name_le_Transitive : Transitive name_le.
Proof. intros a b c. apply name_le_trans. Qed.

(** ** Sorted lists with distinct names *)

Lemma sorted_by_name_unique (l1 l2 : list Snapshot) :
  StronglySorted name_le l1 → StronglySorted name_le l2 →
  l1 ≡ₚ l2 → NoDup (name_key <$> l1) → l1 = l2.
Proof.
  revert l2. induction l1 as [|x l1 IH]; intros l2 H1 H2 Hp Hnd.
  - by apply Permutation_nil in Hp.
  - destruct l2 as [|y l2]; [by apply Permutation_sym, Permutation_nil in Hp|].
    apply StronglySorted_inv in H1 as [H1 Hx].
    apply StronglySorted_inv in H2 as [H2 Hy].
    rewrite List.Forall_forall in Hx, Hy.
    rewrite fmap_cons in Hnd. apply NoDup_cons in Hnd as [Hxn Hnd].
    assert (x = y) as <-.
    { assert (x ∈ y :: l2) as Hxin by (rewrite <- Hp; left).
      assert (y ∈ x :: l1) as Hyin by (rewrite Hp; left).
      apply elem_of_cons in Hxin as [?|Hxin]; [done|].
      apply elem_of_cons in Hyin as [?|Hyin]; [done|].
      exfalso. apply Hxn.
      rewrite (name_le_antisym x y).
      - apply list_elem_of_fmap. by exists y.
      - apply Hx. by apply list_elem_of_In.
      - apply Hy. by apply list_elem_of_In. }
    f_equal. apply IH; try done. by apply Permutation_cons_inv in Hp.
Qed.

(** ** The insertion sort meets the contract of sort.Slice *)

Lemma insert_sorted_perm {A : Type} (less : A → A → bool) (x : A) (l : list A) :
  insert_sorted less x l ≡ₚ x :: l.
Proof.
  induction l as [|y l IH]; simpl; [done|].
  destruct (less x y); [done|]. rewrite IH. apply Permutation_swap.
Qed.

Lemma insertion_sort_perm {A : Type} (less : A → A → bool) (l : list A) :
  insertion_sort less l ≡ₚ l.
Proof.
  unfold insertion_sort.
  assert (∀ acc, foldl (λ acc x, insert_sorted less x acc) acc l ≡ₚ l ++ acc)
    as H.
  { induction l as [|x l IH]; intros acc; simpl; [done|].
    rewrite IH, insert_sorted_perm. by rewrite Permutation_middle. }
  by rewrite H, app_nil_r.
Qed.

Lemma insert_sorted_Sorted (x : Snapshot) (l : list Snapshot) :
  Sorted name_le l → Sorted name_le (insert_sorted name_less x l).
Proof.
  induction l as [|y l IH]; simpl; intros Hs.
  - by repeat constructor.
  - destruct (name_less x y) eqn:Hxy.
    + constructor; [done|]. constructor. by apply name_less_asym.
    + apply Sorted_inv in Hs as [Hs Hhd]. constructor; [by apply IH|].
      destruct l as [|z l]; simpl.
      * by constructor.
      * destruct (name_less x z); constructor; try done.
        by inversion Hhd.
Qed.

Lemma insertion_sort_Sorted (l : list Snapshot) :
  Sorted name_le (insertion_sort name_less l).
Proof.
  unfold insertion_sort.
  assert (∀ acc, Sorted name_le acc →
            Sorted name_le (foldl (λ acc x, insert_sorted name_less x acc) acc l))
    as H.
  { induction l as [|x l IH]; intros acc Hacc; simpl; [done|].
    apply IH. by apply insert_sorted_Sorted. }
  apply H. constructor.
Qed.

(** ** Snapshot *)

Section SnapshotOrder.

(** What is known of [sort.Slice]: the result holds the same elements, and
    no element is less than the one before it. *)
Hypothesis sort_Slice_perm : ∀ l, sort_Slice name_less l ≡ₚ l.
Hypothesis sort_Slice_sorted : ∀ l, Sorted name_le (sort_Slice name_less l).

Lemma Manager_Snapshot_unfold (order : list string) (m : Manager) :
  Manager_Snapshot sort_Slice order m = sort_Slice name_less (snapshots_in order m).
Proof.
  unfold Manager_Snapshot, snapshots_in, entry_of. f_equal.
  induction order as [|tag order IH]; [done|]. cbn [omap list_omap].
  destruct (nodes m !! tag) as [l|]; [|done]. cbn [omap list_omap].
  destruct (store m !! l) as [e|]; cbn [fmap option_fmap option_map];
    by rewrite IH.
Qed.

Lemma entry_of_is_Some (m : Manager) (tag : string) :
  wf m → is_Some (entry_of m tag) ↔ is_Some (nodes m !! tag).
Proof.
  intros [Hr _]. unfold entry_of. destruct (nodes m !! tag) as [l|] eqn:Hl.
  - split; [eauto|]. intros _. apply lookup_lt_is_Some_2. eauto.
  - done.
Qed.

Lemma snapshots_in_perm (m1 m2 : Manager) (o1 o2 : list string) :
  wf m1 → wf m2 → range_order m1 o1 → range_order m2 o2 →
  (∀ tag, entry_of m1 tag = entry_of m2 tag) →
  snapshots_in o1 m1 ≡ₚ snapshots_in o2 m2.
Proof.
  intros Hw1 Hw2 [Hnd1 Ho1] [Hnd2 Ho2] Heq. unfold snapshots_in.
  assert (o1 ≡ₚ o2) as ->.
  { apply NoDup_Permutation; try done. intros tag.
    by rewrite Ho1, Ho2, <- !entry_of_is_Some, Heq. }
  erewrite list_omap_ext; [done|].
  apply Forall2_same_length_lookup. split; [done|].
  intros j x y Hx Hy. rewrite Hx in Hy. injection Hy as <-. by rewrite Heq.
Qed.

Lemma snapshots_in_length (m : Manager) (order : list string) :
  wf m → range_order m order →
  length (snapshots_in order m) = size (nodes m).
Proof.
  intros Hwf [Hnd Ho]. rewrite <- size_dom.
  assert (order ≡ₚ elements (dom (nodes m))) as Hp.
  { apply NoDup_Permutation; [done|apply NoDup_elements|].
    intros tag. by rewrite Ho, elem_of_elements, elem_of_dom. }
  unfold size, set_size; simpl. rewrite <- Hp.
  assert (∀ tag, tag ∈ order → is_Some (entry_of m tag)) as Hall.
  { intros tag Hin. apply entry_of_is_Some; [done|]. by apply Ho. }
  clear Hnd Ho Hp. unfold snapshots_in.
  induction order as [|tag order IH]; simpl; [done|].
  destruct (Hall tag) as [e ->]; [left|]. simpl. f_equal.
  apply IH. intros t Ht. apply Hall. by right.
Qed.

Lemma snapshots_in_elem (m : Manager) (order : list string) (s : Snapshot) :
  wf m → range_order m order →
  s ∈ snapshots_in order m ↔ ∃ tag e, entry_of m tag = Some e ∧ s = snapshot e.
Proof.
  intros Hwf [_ Ho]. unfold snapshots_in. rewrite list_elem_of_omap. split.
  - intros (tag & _ & Hs). destruct (entry_of m tag) as [e|] eqn:He; [|done].
    injection Hs as <-. by exists tag, e.
  - intros (tag & e & He & ->). exists tag. rewrite He. split; [|done].
    apply Ho, entry_of_is_Some; [done|]. by rewrite He.
Qed.

Lemma snapshots_in_names_NoDup (m : Manager) (order : list string) :
  NoDup order → distinct_names m →
  NoDup (name_key <$> snapshots_in order m).
Proof.
  intros Hnd Hdist. unfold snapshots_in.
  induction Hnd as [|tag order Hnotin Hnd IH]; simpl; [constructor|].
  destruct (entry_of m tag) as [e|] eqn:He; simpl; [|done].
  constructor; [|done].
  rewrite list_elem_of_fmap. intros (s & Hname & Hs).
  apply list_elem_of_omap in Hs as (t & Ht & Hsnap).
  destruct (entry_of m t) as [e'|] eqn:He'; [|done]. injection Hsnap as <-.
  apply Hnotin. by rewrite (Hdist tag t e e' He He' Hname).
Qed.

(** C3, as the code has it. [Snapshot] returns one snapshot for each
    registered entry, in non-decreasing order of display name. Whatever
    the order of registration and the order in which the map is ranged
    over, the result holds the same snapshots; when no two entries share a
    display name it is the same list. (Entries with equal names come out in
    an order that the sort and the map iteration decide.) *)
Theorem Snapshot_sorted_by_name (m1 m2 : Manager) (order1 order2 : list string) :
  wf m1 → wf m2 →
  range_order m1 order1 → range_order m2 order2 →
  (∀ tag, entry_of m1 tag = entry_of m2 tag) →
  length (Manager_Snapshot sort_Slice order1 m1) = size (nodes m1) ∧
  (∀ s, s ∈ Manager_Snapshot sort_Slice order1 m1 ↔
        ∃ tag e, entry_of m1 tag = Some e ∧ s = snapshot e) ∧
  StronglySorted name_le (Manager_Snapshot sort_Slice order1 m1) ∧
  Manager_Snapshot sort_Slice order1 m1 ≡ₚ Manager_Snapshot sort_Slice order2 m2 ∧
  (distinct_names m1 →
   Manager_Snapshot sort_Slice order1 m1 = Manager_Snapshot sort_Slice order2 m2).
Proof.
  intros Hw1 Hw2 Ho1 Ho2 Heq. rewrite !Manager_Snapshot_unfold.
  assert (sort_Slice name_less (snapshots_in order1 m1) ≡ₚ
          sort_Slice name_less (snapshots_in order2 m2)) as Hperm.
  { rewrite !sort_Slice_perm. by apply snapshots_in_perm. }
  split; [|split; [|split; [|split]]].
  - rewrite sort_Slice_perm. by apply snapshots_in_length.
  - intros s. rewrite sort_Slice_perm. by apply snapshots_in_elem.
  - apply Sorted_StronglySorted; [apply name_le_Transitive|].
    apply sort_Slice_sorted.
  - done.
  - intros Hdist. apply sorted_by_name_unique; try done.
    + apply Sorted_StronglySorted; [apply name_le_Transitive|].
      apply sort_Slice_sorted.
    + apply Sorted_StronglySorted; [apply name_le_Transitive|].
      apply sort_Slice_sorted.
    + rewrite sort_Slice_perm. apply snapshots_in_names_NoDup; [|done].
      apply Ho1.
Qed.

End SnapshotOrder.

(** * Further properties of the registry *)

(** ** Registrations are kept *)

Lemma run_op_state_inv (o : op) (m m' : Manager) :
  run_op probe_hook release_hook o m = Some m' →
  ∃ cs m1, run_calls cs m = Some m1 ∧
           (m' = m1 ∨ ∃ l d, m' = at_entry l (recordProbeLatency d) m1).
Proof.
  destruct o as [c|ctx tag|tag]; simpl.
  - intros Hc. exists [c], m'. simpl. rewrite Hc. eauto.
  - destruct (Probe probe_hook ctx tag m) as [[m2 r]|] eqn:HP; [|done].
    intros [= <-].
    apply Probe_state_inv in HP as [->|(l & fn & m1 & _ & _ & Hcs & Hm)].
    + exists [], m. eauto.
    + exists (probe_hook fn ctx m).1, m1. split; [done|].
      destruct Hm as [->|[d ->]]; eauto.
  - destruct (Release release_hook tag m) as [[m2 r]|] eqn:HR; [|done].
    intros [= <-].
    apply Release_state_inv in HR as [->|(l & fn & _ & _ & Hcs)].
    + exists [], m. eauto.
    + exists (release_hook fn m), m2. eauto.
Qed.

(** X4. No operation of the registry, and no hook it runs, unregisters a
    tag or moves it to another entry object, and no entry object goes
    away: after any run, a tag that was registered leads to the same
    entry pointer, and a handle that led to an entry still does. *)
Theorem run_keeps_registrations (os : list op) (m m' : Manager) :
  run probe_hook release_hook os m = Some m' →
  (∀ tag l, nodes m !! tag = Some l → nodes m' !! tag = Some l) ∧
  (∀ l, is_Some (store m !! l) → is_Some (store m' !! l)).
Proof.
  revert m. induction os as [|o os IH]; simpl; intros m.
  - by intros [= <-].
  - destruct (run_op probe_hook release_hook o m) as [m1|] eqn:Ho; [|done].
    intros Hrun. destruct (IH m1 Hrun) as [IHn IHs].
    apply run_op_state_inv in Ho as (cs & m0 & Hcs & Hm).
    split.
    + intros tag l Hl. apply IHn.
      pose proof (run_calls_nodes_old cs m m0 tag l Hcs Hl) as H0.
      destruct Hm as [->|(l' & d & ->)]; [done|by rewrite nodes_at_entry].
    + intros l Hl. apply IHs.
      pose proof (run_calls_lookup_Some cs l m m0 Hcs Hl) as [e He].
      destruct Hm as [->|(l' & d & ->)]; [eauto|].
      rewrite store_at_entry, He. case_decide; eauto.
Qed.

(** ** The failure count *)

(** X5. The failure count of an entry changes in one way only:
    [RecordFailure] with an error, through a handle to that entry, adds
    one (and stores the message and the time). Every other call,
    [RecordSuccess], [ClearBlacklist] and [Register] among them, leaves
    the count as it was: nothing in the package resets it. *)
Theorem failure_count_only_grows_by_RecordFailure (c : call) (m m' : Manager)
    (l : nat) (e : entry) :
  run_call c m = Some m' → store m !! l = Some e →
  ∃ e', store m' !! l = Some e' ∧
        match c with
        | CallRecordFailure h (Some er) now =>
            if decide (deref h = Some l)
            then failure e' = int_add (failure e) 1 ∧
                 lastError e' = Error er ∧ lastFail e' = now
            else failure e' = failure e
        | _ => failure e' = failure e
        end.
Proof.
  intros Hrun He. eexists. split; [by eapply run_call_lookup_old|].
  destruct c as [i|h [er|] now|h now|h t|h|h|h|h fn|h fn]; simpl;
    repeat case_decide; try done; try congruence.
Qed.

(** ** IncActive and DecActive *)

Lemma wrap_add_l (w x y : Z) : 0 < w → wrap w (wrap w x + y) = wrap w (x + y).
Proof.
  intros Hw. unfold wrap. f_equal.
  replace ((x + 2 ^ (w - 1)) mod 2 ^ w - 2 ^ (w - 1) + y + 2 ^ (w - 1))
    with ((x + 2 ^ (w - 1)) mod 2 ^ w + y) by lia.
  rewrite Zplus_mod_idemp_l. f_equal. lia.
Qed.

Lemma at_entry_twice (l : nat) (f g : entry → entry) (m : Manager) :
  at_entry l f (at_entry l g m) = at_entry l (f ∘ g) m.
Proof.
  unfold at_entry; simpl. f_equal. apply list_eq. intros j.
  destruct (decide (l = j)) as [<-|Hne].
  - rewrite !list_lookup_alter_eq. by destruct (store m !! l).
  - by rewrite !list_lookup_alter_ne.
Qed.


Lemma at_entry_ext (l : nat) (f g : entry → entry) (m : Manager) :
  (∀ e, store m !! l = Some e → f e = g e) → at_entry l f m = at_entry l g m.
Proof.
  intros Hfg. unfold at_entry. f_equal. apply list_eq. intros j.
  destruct (decide (l = j)) as [<-|Hne].
  - rewrite !list_lookup_alter_eq.
    destruct (store m !! l) as [e|] eqn:He; simpl; [|done]. by rewrite Hfg.
  - by rewrite !list_lookup_alter_ne.
Qed.

(** X6. [DecActive] undoes [IncActive] and [IncActive] undoes [DecActive],
    exactly, whenever the counter is an [int32]: also at the largest and
    the smallest value, where the first step wraps around. *)
Theorem IncActive_DecActive_cancel (h : option EntryHandle) (m : Manager) :
  (∀ l e, deref h = Some l → store m !! l = Some e →
          min_int32 ≤ active e ≤ max_int32) →
  DecActive h (IncActive h m) = m ∧ IncActive h (DecActive h m) = m.
Proof.
  intros Hrange. unfold DecActive, IncActive.
  destruct (deref h) as [l|] eqn:Hh; [|done].
  rewrite !at_entry_twice.
  split; apply at_entry_fixed; intros e He;
    specialize (Hrange l e eq_refl He); unfold min_int32, max_int32 in Hrange;
    destruct e; unfold compose, incActive, decActive, int32_add; simpl in *;
    f_equal; rewrite wrap_add_l by lia;
    match goal with |- wrap _ ?x = ?a => replace x with a by lia end;
    apply wrap_small; try lia; change (32 - 1) with 31; lia.
Qed.

(** ** Blacklist and ClearBlacklist *)

(** X7. Of two [Blacklist] calls on an entry the later one decides the
    deadline, also when it is the earlier time; [ClearBlacklist] after
    [Blacklist] is [ClearBlacklist] alone, and brings back the very state
    from before the [Blacklist] when the entry was not blacklisted and its
    deadline was the zero time. *)
Theorem Blacklist_ClearBlacklist_compose (h : option EntryHandle)
    (t1 t2 : Time) (m : Manager) :
  Blacklist h t2 (Blacklist h t1 m) = Blacklist h t2 m ∧
  ClearBlacklist h (Blacklist h t1 m) = ClearBlacklist h m ∧
  ClearBlacklist h (ClearBlacklist h m) = ClearBlacklist h m ∧
  ((∀ l e, deref h = Some l → store m !! l = Some e →
           blacklist e = false ∧ until e = zero_time) →
   ClearBlacklist h (Blacklist h t1 m) = m).
Proof.
  unfold Blacklist, ClearBlacklist.
  destruct (deref h) as [l|] eqn:Hh; [|done].
  rewrite !at_entry_twice. repeat split.
  intros Hclear. apply at_entry_fixed. intros e He.
  destruct (Hclear l e eq_refl He) as [Hb Hu]. destruct e; simpl in *.
  unfold compose, clearBlacklist, blacklistUntil; simpl. by rewrite Hb, Hu.
Qed.

(** ** Calls on different entries *)










(** ** Entries carry their tag *)

Lemma call_method_info (c : call) (e : entry) :
  info (call_method c e) =
  match c with
  | CallRegister i => i
  | _ => info e
  end.
Proof. destruct c; simpl; try done. by destruct err. Qed.

Lemma run_call_tag_keyed (c : call) (m m' : Manager) :
  wf m → tag_keyed m → run_call c m = Some m' → tag_keyed m'.
Proof.
  intros [Hr Hinj] Hk Hrun tag l e' Hl He'.
  destruct (nodes m !! tag) as [l0|] eqn:Hl0.
  - rewrite (run_call_nodes_old c m m' tag l0 Hrun Hl0) in Hl.
    injection Hl as ->.
    destruct (lookup_lt_is_Some_2 (store m) l (Hr _ _ Hl0)) as [e He].
    rewrite (run_call_lookup_old c m m' l e Hrun He) in He'.
    injection He' as <-. case_decide as Ht; [|by eapply Hk].
    rewrite call_method_info. destruct c; try by eapply Hk.
    simpl in Ht. by eapply Hinj.
  - pose proof (run_call_nodes_new c m m' tag l Hrun Hl0 Hl) as ->.
    destruct (run_call_lookup_new c m m' (length (store m)) e' Hrun)
      as (i & -> & Hi & -> & _); [by apply lookup_ge_None_2|done|].
    apply run_call_store in Hrun as [_ Hn]. rewrite Hn in Hl. simpl in Hl.
    rewrite Hi in Hl. destruct (decide (Tag i = tag)) as [|Hne]; [done|].
    rewrite lookup_insert_ne in Hl by done. congruence.
Qed.

Lemma run_calls_tag_keyed (cs : list call) (m m' : Manager) :
  wf m → tag_keyed m → run_calls cs m = Some m' → tag_keyed m'.
Proof.
  revert m. induction cs as [|c cs IH]; simpl; intros m Hwf Hk.
  - by intros [= <-].
  - destruct (run_call c m) as [m1|] eqn:Hc; [|done].
    apply IH; [by eapply run_call_wf|by eapply run_call_tag_keyed].
Qed.

Lemma at_entry_tag_keyed (l : nat) (f : entry → entry) (m : Manager) :
  (∀ e, info (f e) = info e) → tag_keyed m → tag_keyed (at_entry l f m).
Proof.
  intros Hf Hk tag l' e'. rewrite nodes_at_entry, store_at_entry.
  intros Hl. case_decide as Hll; [|by apply Hk]. subst l'.
  destruct (store m !! l) as [e|] eqn:He; [|done]. simpl.
  intros [= <-]. rewrite Hf. by eapply Hk.
Qed.

Lemma run_tag_keyed (os : list op) (m m' : Manager) :
  wf m → tag_keyed m → run probe_hook release_hook os m = Some m' →
  tag_keyed m'.
Proof.
  revert m. induction os as [|o os IH]; simpl; intros m Hwf Hk.
  - by intros [= <-].
  - destruct (run_op probe_hook release_hook o m) as [m1|] eqn:Ho; [|done].
    apply IH; [by eapply run_op_wf|].
    apply run_op_state_inv in Ho as (cs & m0 & Hcs & Hm).
    pose proof (run_calls_tag_keyed cs m m0 Hwf Hk Hcs) as Hk0.
    destruct Hm as [->|(l & d & ->)]; [done|].
    by apply at_entry_tag_keyed.
Qed.

Lemma snapshots_in_tags (m : Manager) (order : list string) :
  wf m → tag_keyed m → (∀ tag, tag ∈ order → is_Some (nodes m !! tag)) →
  (λ s, Tag (snapInfo s)) <$> snapshots_in order m = order.
Proof.
  intros Hwf Hk. unfold snapshots_in.
  induction order as [|tag order IH]; intros Hall; [done|].
  cbn [omap list_omap].
  assert (is_Some (entry_of m tag)) as [e He].
  { apply entry_of_is_Some; [done|]. apply Hall. left. }
  rewrite He. cbn. f_equal.
  - unfold entry_of in He. destruct (nodes m !! tag) as [l|] eqn:Hl; [|done].
    by eapply Hk.
  - apply IH. intros t Ht. apply Hall. by right.
Qed.

Section SnapshotTags.

Hypothesis sort_Slice_perm : ∀ l, sort_Slice name_less l ≡ₚ l.

(** X9. In every state reached from a new manager, the entry registered
    under a tag carries that tag in its [info], and [Snapshot] returns
    exactly one snapshot for each registered tag: the tags of the
    returned snapshots are the registered tags, each once. *)
Theorem Snapshot_has_each_tag_once (os : list op) (m : Manager)
    (order : list string) :
  run probe_hook release_hook os NewManager = Some m →
  range_order m order →
  tag_keyed m ∧
  (λ s, Tag (snapInfo s)) <$> Manager_Snapshot sort_Slice order m ≡ₚ order ∧
  NoDup ((λ s, Tag (snapInfo s)) <$> Manager_Snapshot sort_Slice order m).
Proof.
  intros Hrun [Hnd Ho].
  pose proof (run_wf os _ m NewManager_wf Hrun) as Hwf.
  assert (tag_keyed m) as Hk.
  { eapply run_tag_keyed; [apply NewManager_wf| |exact Hrun].
    intros tag l e. unfold NewManager; simpl. by rewrite lookup_empty. }
  assert ((λ s, Tag (snapInfo s)) <$> Manager_Snapshot sort_Slice order m
          ≡ₚ order) as Hp.
  { rewrite Manager_Snapshot_unfold, sort_Slice_perm.
    rewrite snapshots_in_tags; [done|done|done|].
    intros tag Ht. by apply Ho. }
  split; [done|]. split; [done|]. by rewrite Hp.
Qed.

End SnapshotTags.

(** ** What a probe stores *)

Lemma run_calls_lastProbe (cs : list call) (m m' : Manager) (l : nat)
    (e : entry) :
  run_calls cs m = Some m' → store m !! l = Some e →
  ∃ e', store m' !! l = Some e' ∧ lastProbe e' = lastProbe e.
Proof.
  revert m e. induction cs as [|c cs IH]; simpl; intros m e.
  - intros [= <-] He. eauto.
  - destruct (run_call c m) as [m1|] eqn:Hc; [|done].
    intros Hrun He.
    pose proof (run_call_lookup_old c m m1 l e Hc He) as H1.
    destruct (IH m1 _ Hrun H1) as (e' & He' & Hlp).
    exists e'. split; [done|]. rewrite Hlp.
    case_decide; [apply call_method_lastProbe|done].
Qed.

(** X10. [Probe] stores a latency only when the probe returned no error,
    and only in the entry of the probed tag: after a probe that failed,
    for whatever reason, every entry shows the latency it had before, and
    after a successful one every other entry does. *)
Theorem Probe_stores_latency_on_success_only (ctx : Ctx) (tag : string)
    (m m' : Manager) (d : Duration) (err : option error) (l : nat)
    (e : entry) :
  Probe probe_hook ctx tag m = Some (m', (d, err)) →
  store m !! l = Some e →
  ∃ e', store m' !! l = Some e' ∧
        lastProbe e' =
        match err with
        | Some _ => lastProbe e
        | None => if decide (nodes m !! tag = Some l) then d else lastProbe e
        end.
Proof.
  intros HP He.
  destruct (nodes m !! tag) as [l0|] eqn:Hl.
  - destruct (probe_at m l0) as [fn|] eqn:Hp.
    + rewrite (Probe_hooked ctx tag m l0 fn Hl Hp) in HP.
      destruct (run_calls _ m) as [m1|] eqn:Hcs; [|done].
      destruct (run_calls_lastProbe _ m m1 l e Hcs He) as (e1 & He1 & Hlp).
      destruct (_.2.2) as [msg|].
      * injection HP as <- <- <-. eauto.
      * injection HP as <- <- <-. rewrite store_at_entry, He1.
        destruct (decide (l0 = l)) as [->|Hne].
        -- rewrite decide_True by done. eexists. split; [done|]. done.
        -- rewrite decide_False by congruence. eauto.
    + rewrite (Probe_no_hook ctx tag m l0 Hl Hp) in HP.
      injection HP as <- <- <-. eauto.
  - rewrite (Probe_unknown ctx tag m Hl) in HP.
    injection HP as <- <- <-. eauto.
Qed.

(** ** Attaching hooks *)

(** X11. The hook that [SetProbe] (or [SetRelease]) stored last is the one
    that [Probe] (or [Release]) runs; after [SetProbe] or [SetRelease]
    with a nil func the entry has no hook again and the call returns the
    not-available error without changing anything. *)
Theorem SetProbe_SetRelease_take_effect (ctx : Ctx) (tag : string)
    (m : Manager) (l : nat) :
  nodes m !! tag = Some l → is_Some (store m !! l) →
  (let m1 := SetProbe (handle_to l) None m in
   Probe probe_hook ctx tag m1 = Some (m1, (0, Some errProbeNotAvailable))) ∧
  (let m1 := SetRelease (handle_to l) None m in
   Release release_hook tag m1 = Some (m1, Some errReleaseNotAvailable)) ∧
  (∀ fn, let m1 := SetProbe (handle_to l) (Some fn) m in
     Probe probe_hook ctx tag m1 =
     match run_calls (probe_hook fn ctx m1).1 m1 with
     | None => None
     | Some m' =>
         match (probe_hook fn ctx m1).2.2 with
         | Some msg => Some (m', (0, Some (errForeign msg)))
         | None =>
             Some (at_entry l (recordProbeLatency (probe_hook fn ctx m1).2.1) m',
                   ((probe_hook fn ctx m1).2.1, None))
         end
     end) ∧
  (∀ fn, let m1 := SetRelease (handle_to l) (Some fn) m in
     Release release_hook tag m1 =
     match run_calls (release_hook fn m1) m1 with
     | None => None
     | Some m' => Some (m', None)
     end).
Proof.
  intros Hl [e He]. unfold SetProbe, SetRelease. simpl.
  repeat split; intros.
  - apply (Probe_no_hook ctx tag _ l); [done|].
    unfold probe_at. by rewrite store_at_entry, decide_True, He.
  - apply (Release_no_hook tag _ l); [done|].
    unfold release_at. by rewrite store_at_entry, decide_True, He.
  - apply (Probe_hooked ctx tag _ l fn); [done|].
    unfold probe_at. by rewrite store_at_entry, decide_True, He.
  - apply (Release_hooked tag _ l fn); [done|].
    unfold release_at. by rewrite store_at_entry, decide_True, He.
Qed.

(** ** The latency in milliseconds *)

(** X12. [LastLatencyMs] is -1 exactly when the stored latency is zero or
    below; for a stored latency above zero it is the number of whole
    milliseconds, rounded down, so a latency under one millisecond shows
    as 0 and never as -1. *)
Theorem LastLatencyMs_rounds_down (e : entry) :
  (LastLatencyMs (snapshot e) = -1 ↔ lastProbe e ≤ 0) ∧
  (0 < lastProbe e →
   0 ≤ LastLatencyMs (snapshot e) ∧
   1000000 * LastLatencyMs (snapshot e) ≤ lastProbe e
     < 1000000 * (LastLatencyMs (snapshot e) + 1)).
Proof.
  unfold snapshot, Milliseconds; simpl.
  destruct (Z.ltb_spec 0 (lastProbe e)) as [Hpos|Hneg].
  - rewrite Z.quot_div_nonneg by lia.
    pose proof (Z.div_mod (lastProbe e) 1000000 ltac:(lia)) as Hdm.
    pose proof (Z.mod_pos_bound (lastProbe e) 1000000 ltac:(lia)) as Hmod.
    pose proof (Z.div_pos (lastProbe e) 1000000 ltac:(lia) ltac:(lia)) as Hq.
    split; [split; lia|]. intros _. lia.
  - split; [done|]. lia.
Qed.

(** ** NewManager *)

(** X13. [NewManager] fails only when the probe target is not empty and
    [net.SplitHostPort] rejects it, with that error. With an empty target
    the manager has no probe destination; otherwise the destination is the
    host with the port that [parsePort] reads, so a port text that is not
    a valid port does not fail but gives port 80. The node map is empty. *)
Theorem NewManager_probe_destination (c : Config) :
  match NewManagerFor c with
  | inr err =>
      ProbeTarget c ≠ EmptyString ∧ SplitHostPort (ProbeTarget c) = inr err
  | inl (p, m) =>
      m = NewManager ∧ cfg p = c ∧
      (ProbeTarget c = EmptyString →
       DestinationForProbe p = (zero_Socksaddr, false)) ∧
      (ProbeTarget c ≠ EmptyString →
       ∃ host port,
         SplitHostPort (ProbeTarget c) = inl (host, port) ∧
         DestinationForProbe p =
           (ParseSocksaddrHostPort host (parsePort port), true))
  end.
Proof.
  unfold NewManagerFor, DestinationForProbe.
  destruct (String.eqb_spec (ProbeTarget c) EmptyString) as [Hempty|Hfull].
  - simpl. by repeat split.
  - destruct (SplitHostPort (ProbeTarget c)) as [[host port]|err] eqn:Hsplit.
    + simpl. repeat split; [done|]. intros _. by exists host, port.
    + done.
Qed.

(** ** The node action handler *)

Lemma handleNodeAction_cases (r : Request) (m : Manager) :
  let tag := action_tag (Path r) in
  let action := action_name (Path r) in
  (tag = EmptyString ∧
   handleNodeAction r m = Some (m, WriteHeader StatusBadRequest)) ∨
  (tag ≠ EmptyString ∧ action ≠ "probe"%string ∧ action ≠ "release"%string ∧
   handleNodeAction r m = Some (m, WriteHeader StatusNotFound)) ∨
  (tag ≠ EmptyString ∧ (action = "probe"%string ∨ action = "release"%string) ∧
   Method r ≠ MethodPost ∧
   handleNodeAction r m = Some (m, WriteHeader StatusMethodNotAllowed)) ∨
  (tag ≠ EmptyString ∧ action = "probe"%string ∧ Method r = MethodPost ∧
   handleNodeAction r m = probe_outcome r tag m) ∨
  (tag ≠ EmptyString ∧ action = "release"%string ∧ Method r = MethodPost ∧
   handleNodeAction r m = release_outcome tag m).
Proof.
  intros tag action. unfold handleNodeAction.
  assert ((length (action_parts (Path r)) <? 1)%nat = false) as ->.
  { apply Nat.ltb_ge. unfold action_parts.
    pose proof (Split_not_nil "/" (TrimPrefix (Path r) "/api/nodes/")).
    destruct (Split _ _); [done|simpl; lia]. }
  fold tag action.
  destruct (String.eqb_spec tag EmptyString) as [Ht|Ht]; [by left|].
  right.
  destruct (String.eqb_spec action "probe") as [Ha|Ha].
  - destruct (String.eqb_spec (Method r) MethodPost) as [Hm|Hm]; simpl.
    + right. right. left. done.
    + right. left. eauto.
  - destruct (String.eqb_spec action "release") as [Hr|Hr].
    + destruct (String.eqb_spec (Method r) MethodPost) as [Hm|Hm]; simpl.
      * right. right. right. done.
      * right. left. eauto.
    + by left.
Qed.

(** X14. [handleNodeAction] answers with status 200, 400, 404 or 405 and
    nothing else. With 400, 404 or 405 it has written no body and has not
    touched the manager. It answers 200 whenever it called [Probe] or
    [Release], also when that call returned an error: the error is in the
    JSON body, not in the status. *)
Theorem handleNodeAction_status (r : Request) (m m' : Manager)
    (resp : Response) :
  handleNodeAction r m = Some (m', resp) →
  (Status resp = StatusOK ∨ Status resp = StatusBadRequest ∨
   Status resp = StatusNotFound ∨ Status resp = StatusMethodNotAllowed) ∧
  (Status resp ≠ StatusOK → m' = m ∧ resp = WriteHeader (Status resp)) ∧
  (Status resp = StatusOK →
   Method r = MethodPost ∧
   ContentType resp = Some "application/json"%string ∧ Body resp ≠ NoBody).
Proof.
  intros H.
  destruct (handleNodeAction_cases r m)
    as [[_ E]|[(_ & _ & _ & E)|[(_ & _ & _ & E)|[(_ & _ & Hm & E)|(_ & _ & Hm & E)]]]];
    rewrite E in H.
  - injection H as <- <-. repeat split; try done; eauto.
  - injection H as <- <-. repeat split; try done; eauto.
  - injection H as <- <-. repeat split; try done; eauto 6.
  - unfold probe_outcome in H. destruct (Probe _ _ _ _) as [[m1 [d err]]|]; [|done].
    injection H as <- <-. destruct err; simpl; repeat split; try done; eauto.
  - unfold release_outcome in H. destruct (Release _ _ _) as [[m1 err]|]; [|done].
    injection H as <- <-. destruct err; simpl; repeat split; try done; eauto.
Qed.

(** X15. Whatever the path, [handleNodeAction] either rejects the request
    without touching the manager, or makes exactly one [Probe] or
    [Release] call, on a tag that is not empty and holds no slash. A node
    whose tag holds a slash can therefore not be probed or released
    through this handler. *)
Theorem handleNodeAction_tag_has_no_slash (r : Request) (m : Manager) :
  (∃ code, handleNodeAction r m = Some (m, WriteHeader code) ∧
           code ≠ StatusOK) ∨
  (∃ tag, tag ≠ EmptyString ∧ has_byte "/" tag = false ∧
          (handleNodeAction r m = probe_outcome r tag m ∨
           handleNodeAction r m = release_outcome tag m)).
Proof.
  pose proof (action_tag_no_slash (Path r)) as Hslash.
  destruct (handleNodeAction_cases r m)
    as [[_ E]|[(_ & _ & _ & E)|[(_ & _ & _ & E)|[(Ht & _ & _ & E)|(Ht & _ & _ & E)]]]].
  - left. by exists StatusBadRequest.
  - left. by exists StatusNotFound.
  - left. by exists StatusMethodNotAllowed.
  - right. exists (action_tag (Path r)). eauto.
  - right. exists (action_tag (Path r)). eauto.
Qed.

Lemma action_of_path (t a rest : string) :
  has_byte "/" t = false → has_byte "/" a = false →
  (action_tag ("/api/nodes/" ++ t ++ String "/" a) = t ∧
   action_name ("/api/nodes/" ++ t ++ String "/" a) = a) ∧
  (action_tag ("/api/nodes/" ++ t ++ String "/" (a ++ String "/" rest)) = t ∧
   action_name ("/api/nodes/" ++ t ++ String "/" (a ++ String "/" rest)) = a) ∧
  (action_tag ("/api/nodes/" ++ t) = t ∧
   action_name ("/api/nodes/" ++ t) = EmptyString).
Proof.
  intros Ht Ha. unfold action_tag, action_name.
  rewrite !(action_parts_app t _ Ht), (action_parts_tag t Ht).
  rewrite (Split_no_sep "/" a Ha), (Split_app_sep "/" a rest Ha).
  repeat split; simpl; done.
Qed.

Lemma handleNodeAction_at_tag (t : string) (ctx : Ctx) (m : Manager) :
  t ≠ EmptyString → has_byte "/" t = false →
  handleNodeAction
    (mkRequest MethodPost ("/api/nodes/" ++ t ++ "/probe") ctx) m =
    probe_outcome
      (mkRequest MethodPost ("/api/nodes/" ++ t ++ "/probe") ctx) t m ∧
  handleNodeAction
    (mkRequest MethodPost ("/api/nodes/" ++ t ++ "/release") ctx) m =
    release_outcome t m.
Proof.
  intros Hne Ht.
  destruct (action_of_path t "probe" EmptyString Ht eq_refl) as ((Pt & Pa) & _).
  destruct (action_of_path t "release" EmptyString Ht eq_refl)
    as ((Rt & Ra) & _).
  assert (String.eqb t EmptyString = false) as Hte
    by (by apply String.eqb_neq).
  split.
  - destruct (handleNodeAction_cases
                (mkRequest MethodPost ("/api/nodes/" ++ t ++ "/probe") ctx) m)
      as [[E _]|[(_ & E & _)|[(_ & _ & E & _)|[(_ & _ & _ & E)|(_ & E & _)]]]];
      cbn [Path Method] in E;
      change ("/api/nodes/" ++ t ++ "/probe")%string
        with ("/api/nodes/" ++ t ++ String "/" "probe")%string in E;
      rewrite ?Pt, ?Pa in E; first [done|exact E].
  - destruct (handleNodeAction_cases
                (mkRequest MethodPost ("/api/nodes/" ++ t ++ "/release") ctx) m)
      as [[E _]|[(_ & _ & E & _)|[(_ & _ & E & _)|[(_ & E & _)|(_ & _ & _ & E)]]]];
      cbn [Path Method] in E;
      change ("/api/nodes/" ++ t ++ "/release")%string
        with ("/api/nodes/" ++ t ++ String "/" "release")%string in E;
      rewrite ?Rt, ?Ra in E; first [done|exact E].
Qed.

(** X16. A [POST] to /api/nodes/<tag>/probe or /api/nodes/<tag>/release,
    for a tag that is not empty and holds no slash, reaches [Probe] or
    [Release] with exactly that tag, and so does the same path with more
    segments after the action; any other method gets 405, the path
    without an action or with another action 404, and an empty tag
    400. *)
Theorem handleNodeAction_addresses_tag (t rest method : string) (ctx : Ctx)
    (m : Manager) :
  t ≠ EmptyString → has_byte "/" t = false →
  let probe_path := ("/api/nodes/" ++ t ++ "/probe")%string in
  let release_path := ("/api/nodes/" ++ t ++ "/release")%string in
  handleNodeAction (mkRequest MethodPost probe_path ctx) m =
    probe_outcome (mkRequest MethodPost probe_path ctx) t m ∧
  handleNodeAction (mkRequest MethodPost (probe_path ++ "/" ++ rest) ctx) m =
    probe_outcome (mkRequest MethodPost probe_path ctx) t m ∧
  handleNodeAction (mkRequest MethodPost release_path ctx) m =
    release_outcome t m ∧
  handleNodeAction (mkRequest MethodPost (release_path ++ "/" ++ rest) ctx) m =
    release_outcome t m ∧
  (method ≠ MethodPost →
   handleNodeAction (mkRequest method probe_path ctx) m =
     Some (m, WriteHeader StatusMethodNotAllowed) ∧
   handleNodeAction (mkRequest method release_path ctx) m =
     Some (m, WriteHeader StatusMethodNotAllowed)) ∧
  handleNodeAction (mkRequest method ("/api/nodes/" ++ t) ctx) m =
    Some (m, WriteHeader StatusNotFound) ∧
  handleNodeAction (mkRequest method ("/api/nodes/" ++ t ++ "/status") ctx) m =
    Some (m, WriteHeader StatusNotFound) ∧
  handleNodeAction (mkRequest method "/api/nodes/" ctx) m =
    Some (m, WriteHeader StatusBadRequest) ∧
  handleNodeAction (mkRequest method ("/api/nodes//probe") ctx) m =
    Some (m, WriteHeader StatusBadRequest).
Proof.
  intros Hne Ht probe_path release_path.
  assert ((("/api/nodes/" ++ t ++ "/probe") ++ "/" ++ rest)%string =
          ("/api/nodes/" ++ t ++ String "/" ("probe" ++ String "/" rest))%string)
    as Hp2 by (by rewrite !string_append_assoc).
  assert ((("/api/nodes/" ++ t ++ "/release") ++ "/" ++ rest)%string =
          ("/api/nodes/" ++ t ++ String "/" ("release" ++ String "/" rest))%string)
    as Hr2 by (by rewrite !string_append_assoc).
  destruct (action_of_path t "probe" rest Ht eq_refl)
    as ((Pt & Pa) & (Pt' & Pa') & (Tt & Ta)).
  destruct (action_of_path t "release" rest Ht eq_refl)
    as ((Rt & Ra) & (Rt' & Ra') & _).
  destruct (action_of_path t "status" rest Ht eq_refl) as ((St & Sa) & _).
  unfold handleNodeAction.
  assert (∀ path, (length (action_parts path) <? 1)%nat = false) as Hlen.
  { intros path. apply Nat.ltb_ge. unfold action_parts.
    pose proof (Split_not_nil "/" (TrimPrefix path "/api/nodes/")).
    destruct (Split _ _); [done|simpl; lia]. }
  assert (String.eqb t EmptyString = false) as Hte
    by (by apply String.eqb_neq).
  unfold probe_path, release_path, probe_outcome, release_outcome.
  cbn [Path Method reqContext]. rewrite !Hlen, Hp2, Hr2.
  rewrite Pt, Pa, Pt', Pa', Rt, Ra, Rt', Ra', Tt, Ta, St, Sa, !Hte.
  repeat split; try done;
    match goal with
    | H : _ ≠ MethodPost |- _ => apply String.eqb_neq in H; by rewrite H
    end.
Qed.

(** X17. A probe or release request for a tag that is not registered is
    answered with status 200 and the body {"error": "node <tag> not
    found"}, and one for a registered node without the hook with the
    not-available message; the manager is not changed. *)
Theorem handleNodeAction_reports_errors_in_body (t : string) (ctx : Ctx)
    (m : Manager) :
  wf m → t ≠ EmptyString → has_byte "/" t = false →
  let probe_req :=
    mkRequest MethodPost ("/api/nodes/" ++ t ++ "/probe") ctx in
  let release_req :=
    mkRequest MethodPost ("/api/nodes/" ++ t ++ "/release") ctx in
  (nodes m !! t = None →
   handleNodeAction probe_req m =
     Some (m, writeJSON (JsonError ("node " ++ t ++ " not found"))) ∧
   handleNodeAction release_req m =
     Some (m, writeJSON (JsonError ("node " ++ t ++ " not found")))) ∧
  (∀ e, entry_of m t = Some e → probe e = None →
        handleNodeAction probe_req m =
          Some (m, writeJSON (JsonError "probe not available for this node"))) ∧
  (∀ e, entry_of m t = Some e → release e = None →
        handleNodeAction release_req m =
          Some (m, writeJSON
                     (JsonError "release not available for this node"))).
Proof.
  intros Hwf Hne Ht probe_req release_req.
  destruct (handleNodeAction_at_tag t ctx m Hne Ht) as [EP ER].
  fold probe_req release_req in EP, ER. rewrite EP, ER.
  unfold probe_outcome, release_outcome, entry_of.
  destruct (nodes m !! t) as [l|] eqn:Hl.
  - split; [done|]. split; intros e He Hnil.
    + rewrite (Probe_no_hook _ t m l Hl); [done|].
      unfold probe_at. by rewrite He.
    + rewrite (Release_no_hook t m l Hl); [done|].
      unfold release_at. by rewrite He.
  - split; [|done]. intros _.
    by rewrite (Probe_unknown _ t m Hl), (Release_unknown t m Hl).
Qed.

(** X18. After a probe request was answered with a latency, the snapshot
    of the node shows the same number of milliseconds when the measured
    latency was above zero; when it was zero the answer says 0 and the
    snapshot says -1. *)
Theorem probe_answer_and_snapshot (r : Request) (m m' : Manager)
    (resp : Response) (message : string) (ms : Z) :
  wf m →
  handleNodeAction r m = Some (m', resp) →
  Body resp = JsonProbed message ms →
  ∃ e', entry_of m' (action_tag (Path r)) = Some e' ∧
        ms = Milliseconds (lastProbe e') ∧
        (0 < lastProbe e' → LastLatencyMs (snapshot e') = ms) ∧
        (lastProbe e' = 0 → ms = 0 ∧ LastLatencyMs (snapshot e') = -1).
Proof.
  intros Hwf H Hbody.
  destruct (handleNodeAction_cases r m)
    as [[_ E]|[(_ & _ & _ & E)|[(_ & _ & _ & E)|[(_ & _ & _ & E)|(_ & _ & _ & E)]]]];
    rewrite E in H; try (injection H as <- <-; done).
  - unfold probe_outcome in H.
    destruct (Probe _ _ _ _) as [[m1 [d err]]|] eqn:HP; [|done].
    injection H as <- <-. destruct err as [er|]; [done|].
    simpl in Hbody. injection Hbody as <- <-.
    destruct (Probe_success_entry _ _ m m1 d Hwf HP) as (e' & He' & Hlp).
    exists e'. split; [done|]. rewrite Hlp. split; [done|].
    unfold snapshot; simpl. rewrite Hlp. split.
    + intros Hd. by rewrite (proj2 (Z.ltb_lt 0 d) Hd).
    + intros ->. done.
  - unfold release_outcome in H.
    destruct (Release _ _ _) as [[m1 err]|]; [|done].
    injection H as <- <-. by destruct err.
Qed.


End RegistryFacts.

(** ** The reload gate *)

(** C2. A reload attempt started from [Idle] whose candidate has fewer
    healthy nodes than [min_available_nodes] ends in [RolledBack] with the
    active instance it started with. Every attempt ends either in
    [RolledBack], with the active instance unchanged, the candidate
    disposed and an error reported, or in [Closed], with the whole fetched
    population adopted as the active instance and the previous instance
    closed; nothing in between. A trigger outside [Idle] is refused with
    [Busy] and changes nothing. *)
Theorem reload_swaps_all_or_nothing (min_available_nodes : nat)
    (a : Reload.Attempt) (o : Reload.Orchestrator) :
  Reload.phase o = Reload.Idle →
  let o' := (Reload.reload min_available_nodes a o).1 in
  let err := (Reload.reload min_available_nodes a o).2 in
  ((Reload.healthy_count (Reload.probed a) < min_available_nodes)%nat →
   Reload.phase o' = Reload.RolledBack ∧ Reload.active o' = Reload.active o) ∧
  ((Reload.phase o' = Reload.RolledBack ∧
    Reload.active o' = Reload.active o ∧
    Reload.candidate o' = None ∧ is_Some err)
   ∨
   (Reload.phase o' = Reload.Closed ∧
    (∃ id ns, Reload.built a = Some id ∧ Reload.fetched a = Some ns ∧
              Reload.active o' = Reload.mkInstance id ns) ∧
    (min_available_nodes ≤ Reload.healthy_count (Reload.probed a))%nat ∧
    Reload.draining o' = None ∧ Reload.active o ∈ Reload.closed o' ∧
    err = None)) ∧
  (∀ busy, Reload.phase busy ≠ Reload.Idle →
           Reload.reload min_available_nodes a busy = (busy, Some Reload.Busy)).
Proof.
  intros Hphase. split; [|split].
  - destruct o as [ph act nf cand dr cl fl]. simpl in Hphase. subst ph.
    destruct a as [c f b p bd drd]. intros Hlt. simpl in Hlt.
    apply Nat.ltb_lt in Hlt.
    unfold Reload.reload. cbn -[Nat.ltb Reload.healthy_count].
    destruct c as [[]|], f, b; cbn -[Nat.ltb Reload.healthy_count];
      rewrite ?Hlt; cbn -[Nat.ltb Reload.healthy_count]; done.
  - destruct o as [ph act nf cand dr cl fl]. simpl in Hphase. subst ph.
    destruct a as [c f b p bd drd].
    unfold Reload.reload. cbn -[Nat.ltb Reload.healthy_count].
    destruct c as [[]|], f as [ns|], b as [id|];
      cbn -[Nat.ltb Reload.healthy_count];
      try (left; by repeat split);
      destruct (Nat.ltb_spec (Reload.healthy_count p) min_available_nodes);
      cbn -[Nat.ltb Reload.healthy_count];
      try (left; by repeat split);
      destruct bd; cbn -[Nat.ltb Reload.healthy_count];
      try (left; by repeat split);
      right; repeat split; try done; eauto; set_solver.
  - intros busy Hbusy. unfold Reload.reload.
    by destruct (Reload.phase busy).
Qed.

(** ** Sample states are well formed *)

Lemma sample_run_wf (os : list (op sample_probe sample_release unit)) :
  wf (sample_run os).
Proof.
  unfold sample_run.
  destruct (run sample_probe_hook sample_release_hook os NewManager)
    as [m|] eqn:Hrun; simpl.
  - eapply run_wf; [apply NewManager_wf|exact Hrun].
  - apply NewManager_wf.
Qed.

Lemma entry_of_two {P R : Type} (m : Manager P R) (t1 t2 tag : string)
    (l1 l2 : nat) :
  nodes m = <[t2 := l2]> (<[t1 := l1]> ∅) →
  entry_of m tag =
  if decide (tag = t2) then store m !! l2
  else if decide (tag = t1) then store m !! l1 else None.
Proof.
  intros Hn. unfold entry_of. rewrite Hn.
  repeat case_decide; subst; simplify_map_eq; done.
Qed.

Lemma range_order_two {P R : Type} (m : Manager P R) (t1 t2 : string)
    (l1 l2 : nat) :
  t1 ≠ t2 → nodes m = <[t2 := l2]> (<[t1 := l1]> ∅) →
  range_order m [t1; t2] ∧ range_order m [t2; t1].
Proof.
  intros Hne Hn. unfold range_order. rewrite Hn.
  assert (∀ tag : string,
            is_Some ((<[t2 := l2]> (<[t1 := l1]> ∅) : gmap string nat) !! tag)
            ↔ tag = t1 ∨ tag = t2) as Hdom.
  { intros tag. destruct (decide (tag = t2)) as [->|N2].
    - rewrite lookup_insert_eq. split; eauto.
    - rewrite lookup_insert_ne by done.
      destruct (decide (tag = t1)) as [->|N1].
      + rewrite lookup_insert_eq. split; eauto.
      + rewrite lookup_insert_ne, lookup_empty by done.
        split; [by intros [? ?]|by intros [?|?]]. }
  split; split.
  - apply NoDup_cons_2; [|apply NoDup_singleton].
    rewrite elem_of_cons, elem_of_nil. tauto.
  - intros tag. rewrite Hdom, !elem_of_cons, elem_of_nil. tauto.
  - apply NoDup_cons_2; [|apply NoDup_singleton].
    rewrite elem_of_cons, elem_of_nil. intros [?|[]]. by apply Hne.
  - intros tag. rewrite Hdom, !elem_of_cons, elem_of_nil. tauto.
Qed.

(** * Instances on the sample states *)

Lemma Register_keeps_runtime_state_witness :
  wf m_busy ∧ nodes m_busy !! "a"%string = Some 0%nat ∧
  ∃ e, store m_busy !! 0%nat = Some e ∧
       store (Register node_a' m_busy).1 !! 0%nat = Some (set_info node_a' e) ∧
       runtime (set_info node_a' e) = runtime e ∧
       blacklist e = true ∧ active e = 1.
Proof.
  pose proof (sample_run_wf
    [OpCall (CallRegister node_a);
     OpCall (CallRecordFailure (handle_to 0)
                               (Some (errForeign "dial timeout")) 5);
     OpCall (CallBlacklist (handle_to 0) 900);
     OpCall (CallIncActive (handle_to 0));
     OpCall (CallSetRelease (handle_to 0)
                            (Some (ReleaseClears (handle_to 0))))]) as Hwf.
  fold m_busy in Hwf.
  assert (nodes m_busy !! Tag node_a' = Some 0%nat) as Hl
    by (vm_compute; reflexivity).
  destruct (Register_keeps_runtime_state sample_probe sample_release
              node_a' m_busy Hwf) as [Hreg _].
  destruct (Hreg 0%nat Hl) as (_ & _ & (e & He & He' & _ & Hrt & _) & _).
  split; [exact Hwf|]. split; [exact Hl|]. exists e.
  split; [exact He|]. split; [exact He'|]. split; [exact Hrt|].
  vm_compute in He. injection He as <-. split; reflexivity.
Defined.

Lemma reload_swaps_all_or_nothing_witness :
  let a := attempt_unhealthy in
  let o := serving_old in
  (Reload.healthy_count (Reload.probed a) < 1)%nat ∧
  Reload.phase (Reload.reload 1 a o).1 = Reload.RolledBack ∧
  Reload.active (Reload.reload 1 a o).1 = Reload.mkInstance 1 ["old"%string] ∧
  (Reload.reload 1 a o).2 = Some (Reload.PreflightError 0 1).
Proof.
  intros a o.
  assert (Reload.healthy_count (Reload.probed a) < 1)%nat as Hlt
    by (vm_compute; lia).
  destruct (reload_swaps_all_or_nothing 1 a o eq_refl) as [Hgate _].
  destruct (Hgate Hlt) as [Hphase Hactive].
  split; [exact Hlt|]. split; [exact Hphase|]. split; [exact Hactive|].
  vm_compute. reflexivity.
Defined.

(** With two healthy candidates the same gate lets the reload through:
    the candidate becomes the active instance and the old one is closed. *)
Example reload_adopts_healthy_candidate :
  Reload.reload 1 attempt_healthy serving_old =
  (Reload.mkOrchestrator Reload.Closed
     (Reload.mkInstance 2 ["n1"; "n2"]%string) ["n1"; "n2"]%string None None
     [Reload.mkInstance 1 ["old"%string]] None,
   None).
Proof. vm_compute. reflexivity. Qed.

Lemma Snapshot_equal_names_follow_range_order :
  range_order m_ac ["a"; "c"]%string ∧ range_order m_ac ["c"; "a"]%string ∧
  (λ s, Tag (snapInfo s)) <$>
    Manager_Snapshot insertion_sort ["a"; "c"]%string m_ac = ["a"; "c"]%string ∧
  (λ s, Tag (snapInfo s)) <$>
    Manager_Snapshot insertion_sort ["c"; "a"]%string m_ac = ["c"; "a"]%string ∧
  Manager_Snapshot insertion_sort ["a"; "c"]%string m_ac ≠
  Manager_Snapshot insertion_sort ["c"; "a"]%string m_ac.
Proof.
  assert (nodes m_ac = <["c"%string := 1%nat]> (<["a"%string := 0%nat]> ∅))
    as Hn by (vm_compute; reflexivity).
  destruct (range_order_two m_ac "a" "c" 0 1 ltac:(done) Hn) as [H1 H2].
  repeat split; try apply H1; try apply H2; try (vm_compute; reflexivity).
  vm_compute. discriminate.
Qed.

Lemma Snapshot_sorted_by_name_witness :
  range_order m_ab ["a"; "b"]%string ∧ range_order m_ba ["b"; "a"]%string ∧
  distinct_names m_ab ∧
  Manager_Snapshot insertion_sort ["a"; "b"]%string m_ab =
  Manager_Snapshot insertion_sort ["b"; "a"]%string m_ba ∧
  length (Manager_Snapshot insertion_sort ["a"; "b"]%string m_ab) = 2%nat.
Proof.
  assert (nodes m_ab = <["b"%string := 1%nat]> (<["a"%string := 0%nat]> ∅))
    as Hab by (vm_compute; reflexivity).
  assert (nodes m_ba = <["a"%string := 1%nat]> (<["b"%string := 0%nat]> ∅))
    as Hba by (vm_compute; reflexivity).
  destruct (range_order_two m_ab "a" "b" 0 1 ltac:(done) Hab) as [Ho1 _].
  destruct (range_order_two m_ba "b" "a" 0 1 ltac:(done) Hba) as [Ho2 _].
  assert (∀ tag, entry_of m_ab tag = entry_of m_ba tag) as Hsame.
  { intros tag. rewrite (entry_of_two m_ab "a" "b" tag 0 1 Hab).
    rewrite (entry_of_two m_ba "b" "a" tag 0 1 Hba).
    repeat case_decide; subst; try done. }
  assert (distinct_names m_ab) as Hdist.
  { intros t1 t2 e1 e2.
    rewrite (entry_of_two m_ab "a" "b" t1 0 1 Hab).
    rewrite (entry_of_two m_ab "a" "b" t2 0 1 Hab).
    repeat case_decide; subst; try done;
      vm_compute; intros [= <-] [= <-]; discriminate. }
  destruct (Snapshot_sorted_by_name sample_probe sample_release insertion_sort
              (insertion_sort_perm name_less) insertion_sort_Sorted
              m_ab m_ba ["a"; "b"]%string ["b"; "a"]%string
              (sample_run_wf _) (sample_run_wf _) Ho1 Ho2 Hsame)
    as (Hlen & _ & _ & _ & Heq).
  split; [exact Ho1|]. split; [exact Ho2|]. split; [exact Hdist|].
  split; [exact (Heq Hdist)|]. rewrite Hlen. vm_compute. reflexivity.
Defined.

Lemma Probe_Release_errors_witness :
  wf m_idle ∧
  Probe sample_probe_hook tt "zz" m_idle =
    Some (m_idle, (0, Some (errNodeNotFound "zz"))) ∧
  Release sample_release_hook "a" m_idle =
    Some (m_idle, Some errReleaseNotAvailable).
Proof.
  pose proof (sample_run_wf [OpCall (CallRegister node_a)]) as Hwf.
  fold m_idle in Hwf.
  destruct (Probe_Release_errors sample_probe sample_release unit
              sample_probe_hook sample_release_hook tt "zz" m_idle Hwf)
    as [[Hunknown _] _].
  destruct (Probe_Release_errors sample_probe sample_release unit
              sample_probe_hook sample_release_hook tt "a" m_idle Hwf)
    as [_ (_ & _ & Hnohook & _)].
  split; [exact Hwf|]. split.
  - apply Hunknown. vm_compute. reflexivity.
  - apply (Hnohook (new_entry node_a)); vm_compute; reflexivity.
Defined.

Lemma DecActive_below_zero :
  let '(m, h) := Register node_a (@NewManager sample_probe sample_release) in
  h = handle_to 0 ∧
  active <$> entry_of m "a" = Some 0 ∧
  active <$> entry_of (DecActive h m) "a" = Some (-1).
Proof. vm_compute. repeat split. Qed.

(** [IncActive] at the largest [int32] wraps around to the smallest. *)
Example IncActive_wraps_at_max_int32 :
  active e_full = max_int32 ∧ active (incActive e_full) = min_int32.
Proof. vm_compute. split; reflexivity. Qed.

Lemma active_nonneg_when_bracketed_witness :
  let os := [OpCall (CallRegister node_a);
             OpCall (CallIncActive (handle_to 0));
             OpCall (CallIncActive (handle_to 0));
             OpCall (CallDecActive (handle_to 0));
             OpRelease "a"%string] in
  guarded sample_probe_hook sample_release_hook os NewManager = true ∧
  active_ok (sample_run os) ∧
  active <$> entry_of (sample_run os) "a" = Some 1.
Proof.
  intros os.
  assert (guarded sample_probe_hook sample_release_hook os NewManager = true)
    as Hg by (vm_compute; reflexivity).
  assert (active_ok (@NewManager sample_probe sample_release)) as H0.
  { intros l e. unfold NewManager; simpl. by rewrite lookup_nil. }
  split; [exact Hg|]. split.
  - apply (active_nonneg_when_bracketed sample_probe sample_release unit
             sample_probe_hook sample_release_hook os NewManager H0 Hg
             (length os)).
    vm_compute. reflexivity.
  - vm_compute. reflexivity.
Defined.

Lemma Release_clears_blacklist_witness :
  blacklist <$> entry_of m_busy "a" = Some true ∧
  ∃ m', Release sample_release_hook "a" m_busy = Some (m', None) ∧
        ∃ e', entry_of m' "a" = Some e' ∧
              blacklist e' = false ∧ until e' = zero_time.
Proof.
  split; [vm_compute; reflexivity|].
  eexists. split; [vm_compute; reflexivity|].
  apply (Release_clears_blacklist sample_probe sample_release
           sample_release_hook "a" m_busy _ 0%nat
           (ReleaseClears (handle_to 0))).
  - apply sample_run_wf.
  - vm_compute. reflexivity.
  - vm_compute. reflexivity.
  - exists [], (handle_to 0), []. repeat split.
  - vm_compute. reflexivity.
Defined.

(** [Release] itself writes nothing: with a release hook that makes no
    call it returns no error and the entry stays blacklisted. *)
Example Release_runs_the_hook_only :
  Release sample_release_hook "a" m_held = Some (m_held, None) ∧
  blacklist <$> entry_of m_held "a" = Some true.
Proof. vm_compute. split; reflexivity. Qed.

Lemma snapshot_latency_sentinel_witness :
  let os := [OpCall (CallRegister node_a); OpCall (CallRegister node_b);
             OpCall (CallSetProbe (handle_to 1) (Some (ProbeTakes 2500000)));
             OpProbe tt "b"%string;
             OpCall (CallRecordSuccess (handle_to 0) 7)] in
  (∃ e, entry_of (sample_run os) "a" = Some e ∧
        LastLatencyMs (snapshot e) = -1) ∧
  (∃ m' e', Probe sample_probe_hook tt "a" m_probes =
              Some (m', (2500000, None)) ∧
            entry_of m' "a" = Some e' ∧ LastLatencyMs (snapshot e') = 2).
Proof.
  intros os.
  destruct (snapshot_latency_sentinel sample_probe sample_release unit
              sample_probe_hook sample_release_hook) as [Hnever Hprobed].
  split.
  - eexists. split; [vm_compute; reflexivity|].
    apply (Hnever os (sample_run os) "a"%string);
      vm_compute; reflexivity.
  - eexists.
    assert (Probe sample_probe_hook tt "a" m_probes =
            Some (default m_probes
                    (fst <$> Probe sample_probe_hook tt "a" m_probes),
                  (2500000, None))) as HP by (vm_compute; reflexivity).
    destruct (Hprobed tt "a"%string m_probes _ 2500000 (sample_run_wf _) HP
                ltac:(lia)) as (e' & He' & Hms).
    exists e'. split; [exact HP|]. split; [exact He'|exact Hms].
Defined.

Lemma EntryHandle_methods_nil_safe_witness :
  nil_handle None ∧ nil_handle (Some (mkHandle None)) ∧
  DecActive None m_busy = m_busy ∧
  RecordFailure (Some (mkHandle None)) None 3 m_busy = Some m_busy.
Proof.
  assert (nil_handle None) as H1 by (by left).
  assert (nil_handle (Some (mkHandle None))) as H2 by (by right).
  split; [exact H1|]. split; [exact H2|]. split.
  - apply (EntryHandle_methods_nil_safe sample_probe sample_release
             None m_busy None 0 0 None None H1).
  - apply (EntryHandle_methods_nil_safe sample_probe sample_release
             (Some (mkHandle None)) m_busy None 3 0 None None H2).
Defined.

Lemma snapshot_sentinel_hides_zero_latency_witness :
  LastLatencyMs (snapshot (@new_entry sample_probe sample_release node_a)) = -1 ∧
  (∃ m' e', Probe sample_probe_hook tt "b" m_probes = Some (m', (0, None)) ∧
            entry_of m' "b" = Some e' ∧ LastLatencyMs (snapshot e') = -1).
Proof.
  destruct (snapshot_sentinel_hides_zero_latency sample_probe sample_release
              unit sample_probe_hook) as [Hle Hzero].
  split.
  - apply Hle. vm_compute. discriminate.
  - eexists.
    assert (Probe sample_probe_hook tt "b" m_probes =
            Some (default m_probes
                    (fst <$> Probe sample_probe_hook tt "b" m_probes),
                  (0, None))) as HP by (vm_compute; reflexivity).
    destruct (Hzero tt "b"%string m_probes _ (sample_run_wf _) HP)
      as (e' & He' & _ & Hms & _ & _).
    exists e'. split; [exact HP|]. split; [exact He'|exact Hms].
Defined.

(** * Instances for the further properties *)

Lemma parsePort_Itoa_witness :
  parsePort (Itoa 8080) = 8080 ∧ parsePort (Itoa 70000) = 80 ∧
  Itoa 8080 = "8080"%string.
Proof.
  split; [|split].
  - apply (parsePort_Itoa 8080). vm_compute. split; discriminate.
  - apply (parsePort_Itoa 70000). vm_compute. split; discriminate.
  - reflexivity.
Defined.

Lemma FromContext_ContextWith_witness :
  let ctx : Context nat := WithValue [] (otherKey "trace") (valOther "t1") in
  FromContext (ContextWith ctx (Some 7%nat)) = Some 7%nat ∧
  FromContext (WithValue (ContextWith ctx (Some 7%nat))
                 (otherKey "easy_proxies.monitor") (valOther "x")) = Some 7%nat.
Proof.
  intros ctx.
  destruct (FromContext_ContextWith ctx 7%nat) as (Hround & _).
  destruct (FromContext_ContextWith (ContextWith ctx (Some 7%nat)) 7%nat)
    as (_ & _ & Hother & _).
  split; [exact Hround|].
  rewrite (Hother (otherKey "easy_proxies.monitor") (valOther "x"));
    [exact Hround|discriminate].
Defined.

Lemma run_keeps_registrations_witness :
  let os := [OpCall (CallRegister node_b);
             OpCall (CallRegister node_a');
             OpRelease "a"%string] in
  nodes (sample_run_from m_busy os) !! "a"%string = Some 0%nat ∧
  is_Some (store (sample_run_from m_busy os) !! 0%nat).
Proof.
  intros os.
  destruct (run_keeps_registrations sample_probe sample_release unit
              sample_probe_hook sample_release_hook os m_busy
              (sample_run_from m_busy os)) as [Hn Hs].
  { vm_compute. reflexivity. }
  split.
  - apply Hn. vm_compute. reflexivity.
  - apply Hs. vm_compute. eauto.
Defined.

Lemma failure_count_only_grows_by_RecordFailure_witness :
  let c := CallRecordSuccess (handle_to 0) 77 in
  ∃ e e', store m_busy !! 0%nat = Some e ∧
          run_call c m_busy = Some (RecordSuccess (handle_to 0) 77 m_busy) ∧
          store (RecordSuccess (handle_to 0) 77 m_busy) !! 0%nat = Some e' ∧
          failure e = 1 ∧ failure e' = failure e.
Proof.
  intros c.
  assert (∃ e, store m_busy !! 0%nat = Some e ∧ failure e = 1)
    as (e & He & Hf) by (eexists; split; vm_compute; reflexivity).
  destruct (failure_count_only_grows_by_RecordFailure sample_probe
              sample_release c m_busy _ 0%nat e eq_refl He)
    as (e' & He' & Hkeep).
  exists e, e'. repeat split; try done.
Defined.

Lemma IncActive_DecActive_cancel_witness :
  DecActive (handle_to 0) (IncActive (handle_to 0) m_busy) = m_busy.
Proof.
  assert (∀ l e, deref (handle_to 0) = Some l → store m_busy !! l = Some e →
                 min_int32 ≤ active e ≤ max_int32) as Hrange.
  { intros l e Hl. injection Hl as <-. intros He.
    vm_compute in He. injection He as <-. split; discriminate. }
  exact (proj1 (IncActive_DecActive_cancel sample_probe sample_release
                  (handle_to 0) m_busy Hrange)).
Defined.

Lemma Blacklist_ClearBlacklist_compose_witness :
  Blacklist (handle_to 0) 50 (Blacklist (handle_to 0) 900 m_idle) =
    Blacklist (handle_to 0) 50 m_idle ∧
  ClearBlacklist (handle_to 0) (Blacklist (handle_to 0) 900 m_idle) = m_idle.
Proof.
  destruct (Blacklist_ClearBlacklist_compose sample_probe sample_release
              (handle_to 0) 900 50 m_idle) as (Hlast & _ & _ & Hback).
  split; [exact Hlast|]. apply Hback.
  intros l e [= <-]. vm_compute. intros [= <-]. split; reflexivity.
Defined.


Lemma Snapshot_has_each_tag_once_witness :
  (λ s, Tag (snapInfo s)) <$>
    Manager_Snapshot insertion_sort ["c"; "a"]%string m_ac
    ≡ₚ ["c"; "a"]%string.
Proof.
  assert (nodes m_ac = <["c"%string := 1%nat]> (<["a"%string := 0%nat]> ∅))
    as Hn by (vm_compute; reflexivity).
  destruct (range_order_two m_ac "a" "c" 0 1 ltac:(done) Hn) as [_ Ho].
  apply (Snapshot_has_each_tag_once sample_probe sample_release unit
           sample_probe_hook sample_release_hook insertion_sort
           (insertion_sort_perm name_less)
           [OpCall (CallRegister node_a); OpCall (CallRegister node_c)]
           m_ac ["c"; "a"]%string); [|exact Ho].
  vm_compute. reflexivity.
Defined.

Lemma Probe_stores_latency_on_success_only_witness :
  ∃ m' e e', Probe sample_probe_hook tt "a" m_probes =
               Some (m', (2500000, None)) ∧
             store m_probes !! 1%nat = Some e ∧
             store m' !! 1%nat = Some e' ∧ lastProbe e' = lastProbe e.
Proof.
  eexists _, _.
  assert (Probe sample_probe_hook tt "a" m_probes =
          Some (default m_probes
                  (fst <$> Probe sample_probe_hook tt "a" m_probes),
                (2500000, None))) as HP by (vm_compute; reflexivity).
  destruct (Probe_stores_latency_on_success_only sample_probe sample_release
              unit sample_probe_hook tt "a" m_probes _ 2500000 None 1%nat
              _ HP ltac:(vm_compute; reflexivity)) as (e' & He' & Hlp).
  exists e'. split; [exact HP|]. split; [vm_compute; reflexivity|].
  split; [exact He'|exact Hlp].
Defined.

Lemma SetProbe_SetRelease_take_effect_witness :
  let m1 := SetProbe (handle_to 0) None m_probes in
  Probe sample_probe_hook tt "a" m1 =
    Some (m1, (0, Some errProbeNotAvailable)).
Proof.
  apply (SetProbe_SetRelease_take_effect sample_probe sample_release unit
           sample_probe_hook sample_release_hook tt "a" m_probes 0%nat).
  - vm_compute. reflexivity.
  - vm_compute. eauto.
Defined.

Lemma LastLatencyMs_rounds_down_witness :
  let e := recordProbeLatency 999999 (@new_entry sample_probe sample_release
                                        node_a) in
  0 ≤ LastLatencyMs (snapshot e) ∧ LastLatencyMs (snapshot e) = 0.
Proof.
  intros e.
  destruct (LastLatencyMs_rounds_down sample_probe sample_release e)
    as [_ Hpos].
  destruct (Hpos ltac:(vm_compute; reflexivity)) as [H0 _].
  split; [exact H0|reflexivity].
Defined.

Lemma NewManager_probe_destination_witness :
  ∃ p, sample_NewManager cfg_named_port = inl (p, NewManager) ∧
       DestinationForProbe (EmptyString, 0) p =
         (("www.apple.com"%string, 80), true).
Proof.
  pose proof (NewManager_probe_destination sample_probe sample_release
                (string * Z)%type (EmptyString, 0) pair sample_SplitHostPort
                cfg_named_port) as H.
  fold (sample_NewManager cfg_named_port) in H.
  destruct (sample_NewManager cfg_named_port) as [[p m]|err] eqn:Hnew.
  - destruct H as (-> & _ & _ & Hdst).
    destruct (Hdst ltac:(discriminate)) as (host & port & Hsplit & Hd).
    exists p. split; [reflexivity|]. rewrite Hd.
    vm_compute in Hsplit. injection Hsplit as <- <-. vm_compute. reflexivity.
  - vm_compute in Hnew. discriminate.
Defined.

Lemma handleNodeAction_status_witness :
  let r := mkRequest "POST" "/api/nodes/zz/probe" tt in
  ∃ resp, sample_handler r m_idle = Some (m_idle, resp) ∧
          Status resp = StatusOK ∧
          Body resp = JsonError "node zz not found" ∧
          ContentType resp = Some "application/json"%string.
Proof.
  intros r. eexists. split; [vm_compute; reflexivity|].
  split; [reflexivity|]. split; [reflexivity|].
  eapply (handleNodeAction_status sample_probe sample_release unit
            sample_probe_hook sample_release_hook sample_WithTimeout r
            m_idle m_idle).
  - vm_compute. reflexivity.
  - reflexivity.
Defined.

Lemma handleNodeAction_addresses_tag_witness :
  sample_handler (mkRequest "POST" "/api/nodes/a/release/now" tt) m_busy =
    release_outcome sample_release_hook "a" m_busy ∧
  sample_handler (mkRequest "GET" "/api/nodes/a/release" tt) m_busy =
    Some (m_busy, WriteHeader StatusMethodNotAllowed).
Proof.
  destruct (handleNodeAction_addresses_tag sample_probe sample_release unit
              sample_probe_hook sample_release_hook sample_WithTimeout
              "a" "now" "GET" tt m_busy ltac:(discriminate) eq_refl)
    as (_ & _ & _ & Hmore & Hget & _).
  split; [exact Hmore|]. apply Hget. discriminate.
Defined.

Lemma handleNodeAction_reports_errors_in_body_witness :
  sample_handler (mkRequest "POST" "/api/nodes/a/probe" tt) m_idle =
    Some (m_idle,
          writeJSON (JsonError "probe not available for this node")) ∧
  sample_handler (mkRequest "POST" "/api/nodes/b/release" tt) m_idle =
    Some (m_idle, writeJSON (JsonError "node b not found")).
Proof.
  destruct (handleNodeAction_reports_errors_in_body sample_probe
              sample_release unit sample_probe_hook sample_release_hook
              sample_WithTimeout "a" tt m_idle (sample_run_wf _)
              ltac:(discriminate) eq_refl) as (_ & Hnohook & _).
  destruct (handleNodeAction_reports_errors_in_body sample_probe
              sample_release unit sample_probe_hook sample_release_hook
              sample_WithTimeout "b" tt m_idle (sample_run_wf _)
              ltac:(discriminate) eq_refl) as (Hunknown & _).
  split.
  - apply (Hnohook (new_entry node_a)); vm_compute; reflexivity.
  - apply Hunknown. vm_compute. reflexivity.
Defined.

Lemma probe_answer_and_snapshot_witness :
  let r := mkRequest "POST" "/api/nodes/b/probe" tt in
  ∃ m' resp e',
    sample_handler r m_probes = Some (m', resp) ∧
    Body resp = JsonProbed "探测成功" 0 ∧
    entry_of m' "b" = Some e' ∧ LastLatencyMs (snapshot e') = -1.
Proof.
  intros r. eexists _, _.
  assert (sample_handler r m_probes =
          Some (default m_probes (fst <$> sample_handler r m_probes),
                writeJSON (JsonProbed "探测成功" 0))) as HR
    by (vm_compute; reflexivity).
  destruct (probe_answer_and_snapshot sample_probe sample_release unit
              sample_probe_hook sample_release_hook sample_WithTimeout
              r m_probes _ _ "探测成功" 0 (sample_run_wf _) HR eq_refl)
    as (e' & He' & _ & _ & Hzero).
  exists e'. split; [exact HR|]. split; [reflexivity|].
  split; [exact He'|]. apply Hzero.
  vm_compute in He'. injection He' as <-. reflexivity.
Defined.

Lemma handleNodeAction_tag_has_no_slash_witness :
  let r := mkRequest "POST" "/api/nodes/a/b/probe" tt in
  sample_handler r m_idle = Some (m_idle, WriteHeader StatusNotFound) ∧
  ((∃ code, sample_handler r m_idle = Some (m_idle, WriteHeader code) ∧
            code ≠ StatusOK) ∨
   (∃ tag, tag ≠ EmptyString ∧ has_byte "/" tag = false ∧
           (sample_handler r m_idle =
              probe_outcome sample_probe_hook sample_WithTimeout r tag m_idle ∨
            sample_handler r m_idle =
              release_outcome sample_release_hook tag m_idle))).
Proof.
  intros r. split; [vm_compute; reflexivity|].
  exact (handleNodeAction_tag_has_no_slash sample_probe sample_release unit
           sample_probe_hook sample_release_hook sample_WithTimeout r m_idle).
Defined.
